(** * TF-IDF by map/reduce: a shallow embedding of the two Python programs

    [MapReduce/TP1.py] computes TF-IDF with plain functions over lists and
    dictionaries; [MapReduce/MapReduce_TFI-DF.py] computes it with a map
    function and a reduce function handed to a job harness.

    Conventions of the embedding.
    - A Python [str] is a [string] of 8-bit characters, read as the code
      points 0..255.
    - A Python [int] that is a count or a length is a [nat]; the total
      number of documents, which the caller supplies, is a [Z].
    - A Python [float] is a real number: [/] on two ints is the exact
      quotient, [math.log] is [ln].  Rounding and overflow of binary64 are
      outside this reading; the exceptions of [/] (division by zero) and of
      [math.log] (argument not positive) are inside it.  [Binary64] reads
      [/] and [*] a second time, in IEEE binary64, for the one statement
      that is about an exact float value.
    - A [dict] is an association list in insertion order, which is the
      order Python iterates it in; a [set] is a duplicate-free list.
    - A function that may raise returns a [result]; a function that writes
      to a context and may raise threads the context and returns it
      together with the exception, if any. *)

From Stdlib Require Import String Ascii List ListSet Bool Arith ZArith Lia.
From Stdlib Require Import Permutation FinFun Reals Lra.
From Stdlib Require Import Floats.SpecFloat.
Import ListNotations.

Set Implicit Arguments.

(** ** Python exceptions and results *)

Inductive exn : Type :=
| ZeroDivisionError
| ValueError
| OverflowError.

Inductive result (A : Type) : Type :=
| Ok (a : A)
| Raise (e : exn).

Arguments Ok {A} a.
Arguments Raise {A} e.

Definition bind {A B : Type} (r : result A) (k : A -> result B) : result B :=
  match r with
  | Ok a => k a
  | Raise e => Raise e
  end.

Notation "x <- r ;; k" := (bind r (fun x => k))
  (at level 61, r at next level, right associativity).

(** ** Numbers *)

(** [a / b] on two Python ints. *)
Definition truediv (a b : Z) : result R :=
  if (b =? 0)%Z then Raise ZeroDivisionError else Ok (IZR a / IZR b)%R.

(** [math.log(x)]: a [ValueError] unless [x] is positive. *)
Definition math_log (x : R) : result R :=
  if Rle_dec x 0 then Raise ValueError else Ok (ln x).

(** The expression [math.log(total_docs / len(...))] both programs use. *)
Definition log_ratio (total_docs : Z) (n : nat) : result R :=
  q <- truediv total_docs (Z.of_nat n) ;; math_log q.

(** ** Strings and the tokenizer *)

(** [str.lower] on the code points below 256: the letters A..Z and the
    Latin-1 capitals 192..222 other than the multiplication sign 215 move
    up by 32. *)
Definition lower_char (c : ascii) : ascii :=
  let n := nat_of_ascii c in
  if ((65 <=? n) && (n <=? 90)) || ((192 <=? n) && (n <=? 222) && negb (n =? 215))
  then ascii_of_nat (n + 32)
  else c.

Fixpoint lower (s : string) : string :=
  match s with
  | EmptyString => EmptyString
  | String c r => String (lower_char c) (lower r)
  end.

(** The alternatives of the regular expression, in its order:
    [; , space . - ! tab double-quote & ( ) * < > / : '] *)
Definition separators : list ascii :=
  [";"; ","; " "; "."; "-"; "!"; "009"; "034"; "&"; "("; ")"; "*"; "<"; ">";
   "/"; ":"; "'"]%char.

Definition is_separator (c : ascii) : bool :=
  existsb (Ascii.eqb c) separators.

(** [re.split(pattern, s)] for a pattern that matches exactly one separator
    character: one piece more than there are separators, empty pieces kept. *)
Fixpoint re_split (s : string) : list string :=
  match s with
  | EmptyString => [EmptyString]
  | String c r =>
      if is_separator c then EmptyString :: re_split r
      else match re_split r with
           | [] => [String c EmptyString]
           | w :: ws => String c w :: ws
           end
  end.

(** Truth value of a string: [if word:]. *)
Definition truthy (word : string) : bool :=
  match word with
  | EmptyString => false
  | String _ _ => true
  end.

(** The token sequence of the specification: the non-empty pieces. *)
Definition tokens (review : string) : list string :=
  filter truthy (re_split (lower review)).

(** ** Dictionaries *)

Definition dict (V : Type) : Type := list (string * V).

Fixpoint dict_get {V : Type} (d : dict V) (k : string) : option V :=
  match d with
  | [] => None
  | (k', v) :: rest => if String.eqb k' k then Some v else dict_get rest k
  end.

Definition keys {V : Type} (d : dict V) : list string := map fst d.

(** [TF[word] += 1] on a [defaultdict(int)]. *)
Fixpoint tf_incr (word : string) (TF : dict nat) : dict nat :=
  match TF with
  | [] => [(word, 1)]
  | (k, n) :: rest =>
      if String.eqb k word then (k, S n) :: rest
      else (k, n) :: tf_incr word rest
  end.

(** The body of the counting loop: [if word: TF[word] += 1]. *)
Definition count_step (TF : dict nat) (word : string) : dict nat :=
  if truthy word then tf_incr word TF else TF.

(** The counting loop shared by the two [map_tf]. *)
Definition count_words (words : list string) : dict nat :=
  fold_left count_step words [].

(** ** TP1.py *)

Module TP1.

(** A mapper result: [((word, id_review), (count, word_count))]. *)
Definition tf_result : Type := (string * string) * (nat * nat).

(** A TF-IDF result: [(id_review, term, tfidf)]. *)
Definition tfidf_result : Type := string * string * R.

Definition map_tf (id_review review : string) : list tf_result :=
  let words := re_split (lower review) in
  let word_count := length words in
  let TF := count_words words in
  fold_left
    (fun results '(word, count) =>
       results ++ [((word, id_review), (count, word_count))])
    TF [].

Definition map_tf_on_reviews (reviews : list (string * string))
  : list tf_result :=
  fold_left
    (fun results '(review_id, review_text) =>
       results ++ map_tf review_id review_text)
    reviews [].

(** [idf_input[word].add(id_review)] on a [defaultdict(set)]. *)
Fixpoint idf_add (word id_review : string) (idf_input : dict (set string))
  : dict (set string) :=
  match idf_input with
  | [] => [(word, set_add string_dec id_review (empty_set string))]
  | (k, ids) :: rest =>
      if String.eqb k word
      then (k, set_add string_dec id_review ids) :: rest
      else (k, ids) :: idf_add word id_review rest
  end.

(** The body of the loop of [map_idf_from_tf]. *)
Definition idf_step (idf_input : dict (set string)) (r : tf_result)
  : dict (set string) :=
  let '((word, id_review), _) := r in idf_add word id_review idf_input.

Definition map_idf_from_tf (tf_results : list tf_result)
  : dict (set string) :=
  fold_left idf_step tf_results [].

Fixpoint calculate_idf (idf_input : dict (set string)) (total_docs : Z)
  : result (dict R) :=
  match idf_input with
  | [] => Ok []
  | (word, doc_ids) :: rest =>
      idf <- log_ratio total_docs (length doc_ids) ;;
      idf_values <- calculate_idf rest total_docs ;;
      Ok ((word, idf) :: idf_values)
  end.

Fixpoint calculate_tfidf (tf_results : list tf_result) (idf_values : dict R)
  : result (list tfidf_result) :=
  match tf_results with
  | [] => Ok []
  | ((term, id_review), (tf, word_count)) :: rest =>
      match dict_get idf_values term with
      | Some idf =>
          q <- truediv (Z.of_nat tf) (Z.of_nat word_count) ;;
          tfidf_results <- calculate_tfidf rest idf_values ;;
          Ok ((id_review, term, (q * idf)%R) :: tfidf_results)
      | None => calculate_tfidf rest idf_values
      end
  end.

Fixpoint filter_term_tfidf (tfidf_results : list tfidf_result) (term : string)
  : list (string * R) :=
  match tfidf_results with
  | [] => []
  | (doc_id, term_result, tfidf) :: rest =>
      if String.eqb term_result term
      then (doc_id, tfidf) :: filter_term_tfidf rest term
      else filter_term_tfidf rest term
  end.

(** The four stages of [process_reviews] between reading the reviews and
    filtering, with the total number of documents as a parameter. *)
Definition tfidf_of_reviews (reviews : list (string * string))
           (total_docs : Z) : result (list tfidf_result) :=
  let tf_results := map_tf_on_reviews reviews in
  let idf_input := map_idf_from_tf tf_results in
  idf_values <- calculate_idf idf_input total_docs ;;
  calculate_tfidf tf_results idf_values.

(** [process_reviews] after [read_documents]; saving the pickle file is
    left out. *)
Definition process_reviews (reviews : list (string * string))
           (search_term : string) : result (list (string * R)) :=
  tfidf_results <- tfidf_of_reviews reviews (Z.of_nat (length reviews)) ;;
  Ok (filter_term_tfidf tfidf_results search_term).

End TP1.

(** ** MapReduce_TFI-DF.py *)

Module MapReduce.

(** What [map_tf] writes under a word: [(review_id, count, word_count)]. *)
Definition tf_value : Type := string * nat * nat.

(** What [reduce_tf_idf] writes under a review id: [(word, tfidf)]. *)
Definition tfidf_value : Type := string * R.

(** The output side of a context: the pairs written so far. *)
Definition context (V : Type) : Type := list (string * V).

(** [context.write(key, value)]. *)
Definition write {V : Type} (ctx : context V) (key : string) (value : V)
  : context V :=
  ctx ++ [(key, value)].

Definition map_tf (review_id review : string) (ctx : context tf_value)
  : context tf_value :=
  let words := re_split (lower review) in
  let word_count := length words in
  let TF := count_words words in
  fold_left
    (fun ctx '(word, count) => write ctx word (review_id, count, word_count))
    TF ctx.

(** The second loop of [reduce_tf_idf]: one write per document; a zero
    [total_words] raises and leaves the earlier writes in the context. *)
Fixpoint write_tfidf (word : string) (idf : R) (documents : list tf_value)
         (ctx : context tfidf_value) : context tfidf_value * option exn :=
  match documents with
  | [] => (ctx, None)
  | (review_id, tf, total_words) :: rest =>
      match truediv (Z.of_nat tf) (Z.of_nat total_words) with
      | Raise e => (ctx, Some e)
      | Ok q => write_tfidf word idf rest (write ctx review_id (word, (q * idf)%R))
      end
  end.

(** [total_docs] is [context[0]], the parameter of the job. *)
Definition reduce_tf_idf (word : string) (values_iterator : list tf_value)
           (total_docs : Z) (ctx : context tfidf_value)
  : context tfidf_value * option exn :=
  let documents := values_iterator in
  match log_ratio total_docs (length documents) with
  | Raise e => (ctx, Some e)
  | Ok idf => write_tfidf word idf documents ctx
  end.

Fixpoint select_word (tfidf_results : list (string * string * R))
         (term : string) : list (string * R) :=
  match tfidf_results with
  | [] => []
  | (review_id, word, tfidf) :: rest =>
      if String.eqb word term
      then (review_id, tfidf) :: select_word rest term
      else select_word rest term
  end.

End MapReduce.

(** ** The job harness *)

Module MRE.

Import MapReduce.

(** Modelled from the spec: the module [MRE], whose [Job] runs the map and
    the reduce function, is not among the sources.  The shuffle of
    section 4.3 groups the written pairs by key, with exact string
    equality, and gives each distinct key the complete collection of its
    values.  Groups are kept here in order of first appearance and values
    in order of writing; the specification fixes no order. *)
Fixpoint group_insert {V : Type} (key : string) (value : V)
         (groups : dict (list V)) : dict (list V) :=
  match groups with
  | [] => [(key, [value])]
  | (k, values) :: rest =>
      if String.eqb k key then (k, values ++ [value]) :: rest
      else (k, values) :: group_insert key value rest
  end.

(** Modelled from the spec: the shuffle of section 4.3 (see
    [group_insert]). *)
Definition shuffle {V : Type} (written : context V) : dict (list V) :=
  fold_left (fun groups p => group_insert (fst p) (snd p) groups) written [].

(** Modelled from the spec: the map stage of the missing harness, one
    [map_tf] per document, all writing to one channel (sections 4.2
    and 6). *)
Definition map_phase (corpus : list (string * string)) : context tf_value :=
  fold_left (fun ctx '(review_id, review) => map_tf review_id review ctx)
            corpus [].

(** Modelled from the spec: the reduce stage of the missing harness, one
    [reduce_tf_idf] per group, every one with the same [total_docs]
    (sections 4.4, 4.5 and 6); an exception aborts the run. *)
Fixpoint reduce_phase (groups : dict (list tf_value)) (total_docs : Z)
         (ctx : context tfidf_value) : context tfidf_value * option exn :=
  match groups with
  | [] => (ctx, None)
  | (word, values) :: rest =>
      match reduce_tf_idf word values total_docs ctx with
      | (ctx', None) => reduce_phase rest total_docs ctx'
      | (ctx', Some e) => (ctx', Some e)
      end
  end.

(** Modelled from the spec: a whole run of the missing harness: map every
    document, shuffle, reduce every group (section 2, data flow). *)
Definition run_job (corpus : list (string * string)) (total_docs : Z)
  : context tfidf_value * option exn :=
  reduce_phase (shuffle (map_phase corpus)) total_docs [].

End MRE.

(** ** The arithmetic in binary64 *)

Module Binary64.

(** The precision and the exponent bound of the format. *)
Definition prec : Z := 53.
Definition emax : Z := 1024.

(** A Python int as the float of the same value, its mantissa not yet
    rounded. *)
Definition of_int (a : Z) : spec_float :=
  match a with
  | Z0 => S754_zero false
  | Zpos p => S754_finite false p 0
  | Zneg p => S754_finite true p 0
  end.

Definition is_finite (x : spec_float) : bool :=
  match x with
  | S754_zero _ | S754_finite _ _ _ => true
  | S754_infinity _ | S754_nan => false
  end.

(** [a / b] on two Python ints: the exact quotient rounded once to the
    nearest float, ties to even; [ZeroDivisionError] for a zero divisor and
    [OverflowError] when the quotient is too large for a float. *)
Definition truediv (a b : Z) : result spec_float :=
  if (b =? 0)%Z then Raise ZeroDivisionError
  else
    let q := SFdiv prec emax (of_int a) (of_int b) in
    if is_finite q then Ok q else Raise OverflowError.

(** [x * y] on two floats. *)
Definition mul (x y : spec_float) : spec_float := SFmul prec emax x y.

(** [0.0] and [1.0]. *)
Definition zero : spec_float := S754_zero false.
Definition one : spec_float := S754_finite false 4503599627370496 (-52).

End Binary64.

(** ** Reading the documents and the output file *)

(** The tab character. *)
Definition tab : ascii := "009"%char.

(** [s.split(sep)] for a separator of one character: one piece more than
    there are separators, empty pieces kept. *)
Fixpoint str_split (sep : ascii) (s : string) : list string :=
  match s with
  | EmptyString => [EmptyString]
  | String c r =>
      if Ascii.eqb c sep then EmptyString :: str_split sep r
      else match str_split sep r with
           | [] => [String c EmptyString]
           | w :: ws => String c w :: ws
           end
  end.

(** [str.isspace] on the code points below 256: 9 to 13, 28 to 32, 133
    and 160. *)
Definition is_space (c : ascii) : bool :=
  let n := nat_of_ascii c in
  ((9 <=? n) && (n <=? 13)) || ((28 <=? n) && (n <=? 32))
  || (n =? 133) || (n =? 160).

Fixpoint lstrip (s : string) : string :=
  match s with
  | EmptyString => EmptyString
  | String c r => if is_space c then lstrip r else s
  end.

Fixpoint rstrip (s : string) : string :=
  match s with
  | EmptyString => EmptyString
  | String c r =>
      match rstrip r with
      | EmptyString => if is_space c then EmptyString else String c EmptyString
      | r' => String c r'
      end
  end.

(** [s.strip()]. *)
Definition strip (s : string) : string := rstrip (lstrip s).

(** [s.endswith(suffix)]. *)
Definition endswith (suffix s : string) : bool :=
  (String.length suffix <=? String.length s)
  && String.eqb
       (substring (String.length s - String.length suffix)
                  (String.length suffix) s)
       suffix.

(** What [read_documents] returns: the reviews, or the [IndexError] of
    [split(...)[1]] on a file without a tab. *)
Inductive reading (A : Type) : Type :=
| Read (a : A)
| RaiseIndexError.

Arguments Read {A} a.
Arguments RaiseIndexError {A}.

(** [filename.split('.')[0]]. *)
Definition review_id_of (filename : string) : string :=
  match str_split "."%char filename with
  | [] => EmptyString
  | review_id :: _ => review_id
  end.

(** [f.read().strip().split('\t')[1]]. *)
Definition review_text_of (content : string) : reading string :=
  match str_split tab (strip content) with
  | _ :: review_text :: _ => Read review_text
  | _ => RaiseIndexError
  end.

(** [read_documents], the same in the three files, over a folder given as
    the list of its file names, in the order of [os.listdir], each with
    the content of the file. *)
Fixpoint read_documents (folder : list (string * string))
  : reading (list (string * string)) :=
  match folder with
  | [] => Read []
  | (filename, content) :: rest =>
      if endswith ".txt" filename
      then match review_text_of content with
           | RaiseIndexError => RaiseIndexError
           | Read review_text =>
               match read_documents rest with
               | RaiseIndexError => RaiseIndexError
               | Read reviews =>
                   Read ((review_id_of filename, review_text) :: reviews)
               end
           end
      else read_documents rest
  end.

(** The total the job is configured with:
    [len([name for name in os.listdir(input_path) if name.endswith(".txt")])]. *)
Definition count_txt_files (names : list string) : nat :=
  length (filter (endswith ".txt") names).

(** The loop of [filter_results_by_word] (MapReduce/MapReduce_TFI-DF.py;
    [filter_results_by_term] in the other copy) over the lines of the
    output file: the lines it prints, after the heading. *)
Fixpoint filter_results_by_word (lines : list string) (term : string)
  : list string :=
  match lines with
  | [] => []
  | line :: rest =>
      let columns := str_split tab (strip line) in
      if (1 <? length columns) && String.eqb (nth 1 columns EmptyString) term
      then strip line :: filter_results_by_word rest term
      else filter_results_by_word rest term
  end.

(** * Vocabulary of the statements *)

(** The score [(tf / word_count) * idf] both programs compute. *)
Definition tfidf_score (tf word_count : nat) (idf : R) : R :=
  (IZR (Z.of_nat tf) / IZR (Z.of_nat word_count) * idf)%R.

(** The entry [reduce_tf_idf] writes for one record of a group. *)
Definition tfidf_entry (word : string) (idf : R) (v : MapReduce.tf_value)
  : string * MapReduce.tfidf_value :=
  (fst (fst v), (word, tfidf_score (snd (fst v)) (snd v) idf)).

(** The result [calculate_tfidf] appends for one mapper result. *)
Definition tfidf_triple (idf : string -> R) (r : TP1.tf_result)
  : TP1.tfidf_result :=
  (snd (fst r), fst (fst r),
   tfidf_score (fst (snd r)) (snd (snd r)) (idf (fst (fst r)))).

(** The number of distinct document ids among the records of a group. *)
Definition distinct_doc_ids (values : list MapReduce.tf_value) : nat :=
  length (nodup string_dec (map (fun v => fst (fst v)) values)).

(** The number of pairs written under a key. *)
Definition key_count {V : Type} (key : string) (written : list (string * V))
  : nat :=
  length (filter (fun p => String.eqb (fst p) key) written).

(** The size of the set [map_idf_from_tf] holds for a word, zero when it
    holds none. *)
Definition doc_frequency (tf_results : list TP1.tf_result) (word : string)
  : nat :=
  match dict_get (TP1.map_idf_from_tf tf_results) word with
  | Some doc_ids => length doc_ids
  | None => 0
  end.

(** The natural logarithm of [total_docs / n]. *)
Definition ln_ratio (total_docs : Z) (n : nat) : R :=
  ln (IZR total_docs / IZR (Z.of_nat n)).

(** The mapper results of one word. *)
Definition results_of_word (tf_results : list TP1.tf_result) (word : string)
  : list TP1.tf_result :=
  filter (fun r => String.eqb (fst (fst r)) word) tf_results.

(** The number of distinct document ids among the mapper results of a
    word. *)
Definition distinct_ids_of_word (tf_results : list TP1.tf_result)
           (word : string) : nat :=
  length (nodup string_dec
                (map (fun r => snd (fst r)) (results_of_word tf_results word))).

(** Two results of the pure pipeline that agree up to the order of the
    entries, or raise the same exception. *)
Definition same_result (r r' : result (list TP1.tfidf_result)) : Prop :=
  match r, r' with
  | Ok l, Ok l' => Permutation l l'
  | Raise e, Raise e' => e = e'
  | _, _ => False
  end.

(** Two outcomes of a run of the job that agree up to the order of the
    written entries and on the exception, if any. *)
Definition same_outcome
           (o o' : MapReduce.context MapReduce.tfidf_value * option exn)
  : Prop :=
  Permutation (fst o) (fst o') /\ snd o = snd o'.

(** No record of the group has document length zero. *)
Definition lengths_nonzero (documents : list MapReduce.tf_value) : Prop :=
  forall v, In v documents -> snd v <> 0.

(** The pairs a dictionary of groups stands for, group after group. *)
Definition flatten {V : Type} (groups : dict (list V)) : list (string * V) :=
  flat_map (fun g => map (pair (fst g)) (snd g)) groups.

(** The entries the reducer writes for a whole group, given the total. *)
Definition group_entries (total_docs : Z)
           (g : string * list MapReduce.tf_value)
  : list (string * MapReduce.tfidf_value) :=
  map (tfidf_entry (fst g) (ln_ratio total_docs (length (snd g)))) (snd g).

(** The entry of one written pair, its inverse document frequency taken
    from the number of pairs written under the same word. *)
Definition written_entry (total_docs : Z)
           (written : list (string * MapReduce.tf_value))
           (p : string * MapReduce.tf_value)
  : string * MapReduce.tfidf_value :=
  tfidf_entry (fst p) (ln_ratio total_docs (key_count (fst p) written)) (snd p).

(** A mapper result of TP1.py as the pair the other mapper writes. *)
Definition as_written (r : TP1.tf_result) : string * MapReduce.tf_value :=
  (fst (fst r), (snd (fst r), fst (snd r), snd (snd r))).

(** A written entry [(review_id, (word, tfidf))] as the triple of TP1.py. *)
Definition as_triple (e : string * MapReduce.tfidf_value) : TP1.tfidf_result :=
  (fst e, fst (snd e), snd (snd e)).

(** The count a dictionary holds for a word, zero when it has no entry. *)
Definition tf_count (TF : dict nat) (word : string) : nat :=
  match dict_get TF word with
  | Some n => n
  | None => 0
  end.

Definition positive_counts (TF : dict nat) : Prop :=
  forall k n, In (k, n) TF -> 1 <= n.

(** The set a dictionary holds for a word, empty when it holds none. *)
Definition ids_or_empty (d : dict (set string)) (word : string) : set string :=
  match dict_get d word with
  | Some ids => ids
  | None => empty_set string
  end.

(** What the dictionary of sets holds after the mapper results [seen]:
    under each word the duplicate-free, non-empty list of the documents
    that have a result for the word, and nothing under other words. *)
Definition idf_input_of (d : dict (set string)) (seen : list TP1.tf_result)
  : Prop :=
  NoDup (keys d) /\
  forall word,
    match dict_get d word with
    | Some ids =>
        NoDup ids /\ ids <> [] /\
        forall id, In id ids <-> exists c, In ((word, id), c) seen
    | None => forall id c, ~ In ((word, id), c) seen
    end.

(** The last two stages of the pure pipeline over any mapper results. *)
Definition idf_then_tfidf (tf_results : list TP1.tf_result) (total_docs : Z)
  : result (list TP1.tfidf_result) :=
  idf_values <- TP1.calculate_idf (TP1.map_idf_from_tf tf_results) total_docs ;;
  TP1.calculate_tfidf tf_results idf_values.

(** Every group has a record, and no record a document length of zero. *)
Definition groups_well_formed (groups : dict (list MapReduce.tf_value))
  : Prop :=
  forall g, In g groups -> snd g <> [] /\ lengths_nonzero (snd g).

(** The (word, document) pair a written pair stands for. *)
Definition word_and_doc (p : string * MapReduce.tf_value) : string * string :=
  (fst p, fst (fst (snd p))).

(** The number of characters of a string that satisfy a test. *)
Fixpoint count_chars (p : ascii -> bool) (s : string) : nat :=
  match s with
  | EmptyString => 0
  | String c r => (if p c then 1 else 0) + count_chars p r
  end.

(** The number of separator characters of a text. *)
Definition count_separators (s : string) : nat := count_chars is_separator s.

(** A text without its separator characters. *)
Fixpoint remove_separators (s : string) : string :=
  match s with
  | EmptyString => EmptyString
  | String c r =>
      if is_separator c then remove_separators r
      else String c (remove_separators r)
  end.

(** The strings of a list put end to end. *)
Definition glue (pieces : list string) : string :=
  fold_right String.append EmptyString pieces.

(** The raw counts of the results of a mapper, added up. *)
Definition total_count (tf_results : list TP1.tf_result) : nat :=
  list_sum (map (fun r => fst (snd r)) tf_results).

(** Whether a term is one of the tokens of a text. *)
Definition mentions (term text : string) : bool :=
  existsb (String.eqb term) (tokens text).

(** Whether [term in idf_values] holds for the term of a mapper result. *)
Definition has_idf (idf_values : dict R) (r : TP1.tf_result) : bool :=
  match dict_get idf_values (fst (fst r)) with
  | Some _ => true
  | None => false
  end.

(** The value a dictionary of inverse document frequencies holds for a
    word, zero when it holds none. *)
Definition idf_or_zero (idf_values : dict R) (word : string) : R :=
  match dict_get idf_values word with
  | Some idf => idf
  | None => 0%R
  end.



(** The number of occurrences of a character in a string. *)
Definition count_char (sep : ascii) (s : string) : nat :=
  count_chars (fun c => Ascii.eqb c sep) s.

(** [sep.join(pieces)] for a separator of one character. *)
Fixpoint join (sep : ascii) (pieces : list string) : string :=
  match pieces with
  | [] => EmptyString
  | w :: ws =>
      match ws with
      | [] => w
      | _ :: _ => (w ++ String sep (join sep ws))%string
      end
  end.

(** The test of [filter_results_by_word] on a stripped line. *)
Definition second_column_is (term line : string) : bool :=
  (1 <? length (str_split tab line))
  && String.eqb (nth 1 (str_split tab line) EmptyString) term.

(** The review [read_documents] appends for a file that has a tab. *)
Definition review_of_file (file : string * string) : string * string :=
  (review_id_of (fst file),
   nth 1 (str_split tab (strip (snd file))) EmptyString).

(** The reviews that have a term among their tokens. *)
Definition reviews_with (term : string) (reviews : list (string * string))
  : list (string * string) :=
  filter (fun p => mentions term (snd p)) reviews.

(** The strings of a list, each once, in the order of their first
    occurrences. *)
Fixpoint first_occurrences (l : list string) : list string :=
  match l with
  | [] => []
  | x :: xs => x :: remove string_dec x (first_occurrences xs)
  end.

(** Whether a string consists of white space only. *)
Fixpoint blank (s : string) : bool :=
  match s with
  | EmptyString => true
  | String c r => is_space c && blank r
  end.

(** * Facts about the embedding *)

Open Scope string_scope.
Open Scope list_scope.

(** ** Results *)

Lemma truediv_ok (a b : Z) :
  b <> 0%Z -> truediv a b = Ok (IZR a / IZR b)%R.
Proof.
  intros Hb. unfold truediv.
  destruct (Z.eqb_spec b 0) as [E | _]; [contradiction | reflexivity].
Qed.

Lemma math_log_ok (x : R) : (0 < x)%R -> math_log x = Ok (ln x).
Proof.
  intros Hx. unfold math_log.
  destruct (Rle_dec x 0) as [Hle | _]; [lra | reflexivity].
Qed.

Lemma math_log_raise (x : R) : (x <= 0)%R -> math_log x = Raise ValueError.
Proof.
  intros Hx. unfold math_log.
  destruct (Rle_dec x 0) as [_ | Hn]; [reflexivity | contradiction].
Qed.

Lemma IZR_of_nat_pos (n : nat) : (0 < n)%nat -> (0 < IZR (Z.of_nat n))%R.
Proof. intros Hn. apply IZR_lt. lia. Qed.

Lemma ratio_pos (total : Z) (n : nat) :
  (0 < total)%Z -> (0 < n)%nat -> (0 < IZR total / IZR (Z.of_nat n))%R.
Proof.
  intros Ht Hn. apply Rdiv_lt_0_compat.
  - now apply IZR_lt.
  - now apply IZR_of_nat_pos.
Qed.

Lemma ratio_nonpos (total : Z) (n : nat) :
  (total <= 0)%Z -> (0 < n)%nat -> (IZR total / IZR (Z.of_nat n) <= 0)%R.
Proof.
  intros Ht Hn.
  pose proof (IZR_of_nat_pos Hn) as Hpos.
  assert (Hle : (IZR total <= 0)%R) by now apply IZR_le.
  unfold Rdiv.
  pose proof (Rinv_0_lt_compat _ Hpos) as Hinv.
  replace 0%R with (0 * / IZR (Z.of_nat n))%R by ring.
  apply Rmult_le_compat_r; lra.
Qed.

(** The logarithm of the ratio is computed exactly when the total is
    positive (the divisor being a positive length). *)
Lemma log_ratio_ok (total : Z) (n : nat) :
  (0 < total)%Z -> (0 < n)%nat ->
  log_ratio total n = Ok (ln_ratio total n).
Proof.
  intros Ht Hn. unfold log_ratio.
  rewrite truediv_ok by lia. simpl.
  apply math_log_ok. now apply ratio_pos.
Qed.

Lemma log_ratio_raise (total : Z) (n : nat) :
  (total <= 0)%Z -> (0 < n)%nat -> log_ratio total n = Raise ValueError.
Proof.
  intros Ht Hn. unfold log_ratio.
  rewrite truediv_ok by lia. simpl.
  apply math_log_raise. now apply ratio_nonpos.
Qed.


(** ** Dictionaries *)

Lemma dict_get_In {V : Type} (d : dict V) (k : string) (v : V) :
  dict_get d k = Some v -> In (k, v) d.
Proof.
  induction d as [| [k' v'] d IH]; simpl; [discriminate |].
  destruct (String.eqb_spec k' k) as [-> | Hne].
  - intros [= ->]. now left.
  - intros H. right. auto.
Qed.

Lemma In_dict_get {V : Type} (d : dict V) (k : string) (v : V) :
  NoDup (keys d) -> In (k, v) d -> dict_get d k = Some v.
Proof.
  induction d as [| [k' v'] d IH]; simpl; [contradiction |].
  intros Hnd [[= -> ->] | Hin].
  - now rewrite String.eqb_refl.
  - inversion Hnd as [| ? ? Hnotin Hnd']; subst.
    destruct (String.eqb_spec k' k) as [-> | Hne].
    + exfalso. apply Hnotin. unfold keys.
      change k with (fst (k, v)). now apply in_map.
    + auto.
Qed.

Lemma dict_get_None {V : Type} (d : dict V) (k : string) :
  dict_get d k = None <-> ~ In k (keys d).
Proof.
  induction d as [| [k' v'] d IH]; simpl.
  - tauto.
  - destruct (String.eqb_spec k' k) as [-> | Hne].
    + split; [discriminate | intros H; exfalso; apply H; now left].
    + rewrite IH. split.
      * intros H [E | Hin]; [now apply Hne | now apply H].
      * intros H Hin. apply H. now right.
Qed.

(** ** The counting loop *)

Lemma tf_count_incr_same (word : string) (TF : dict nat) :
  dict_get (tf_incr word TF) word = Some (S (tf_count TF word)).
Proof.
  unfold tf_count.
  induction TF as [| [k n] TF IH]; simpl.
  - now rewrite String.eqb_refl.
  - destruct (String.eqb_spec k word) as [-> | Hne]; simpl.
    + now rewrite String.eqb_refl.
    + destruct (String.eqb_spec k word); [contradiction | exact IH].
Qed.

Lemma tf_count_incr_other (word w : string) (TF : dict nat) :
  word <> w -> dict_get (tf_incr word TF) w = dict_get TF w.
Proof.
  intros Hne.
  induction TF as [| [k n] TF IH]; simpl.
  - destruct (String.eqb_spec word w); [contradiction | reflexivity].
  - destruct (String.eqb_spec k word) as [-> | Hk]; simpl.
    + destruct (String.eqb_spec word w); [contradiction | reflexivity].
    + now rewrite IH.
Qed.

Lemma keys_tf_incr (word k : string) (TF : dict nat) :
  In k (keys (tf_incr word TF)) <-> k = word \/ In k (keys TF).
Proof.
  induction TF as [| [k' n] TF IH]; simpl.
  - intuition.
  - destruct (String.eqb_spec k' word) as [-> | Hk]; simpl.
    + intuition.
    + rewrite IH. intuition.
Qed.

Lemma NoDup_keys_tf_incr (word : string) (TF : dict nat) :
  NoDup (keys TF) -> NoDup (keys (tf_incr word TF)).
Proof.
  induction TF as [| [k n] TF IH]; simpl; intros Hnd.
  - constructor; [intros [] | constructor].
  - inversion Hnd as [| ? ? Hnotin Hnd']; subst.
    destruct (String.eqb_spec k word) as [-> | Hk]; simpl.
    + now constructor.
    + constructor; [| now apply IH].
      rewrite keys_tf_incr. intros [E | Hin]; [now apply Hk | contradiction].
Qed.

Lemma positive_counts_tf_incr (word : string) (TF : dict nat) :
  positive_counts TF -> positive_counts (tf_incr word TF).
Proof.
  unfold positive_counts.
  induction TF as [| [k n] TF IH]; simpl; intros Hpos k0 n0.
  - intros [[= <- <-] | []]. lia.
  - destruct (String.eqb_spec k word) as [-> | Hk]; simpl.
    + intros [[= <- <-] | Hin]; [lia | apply (Hpos k0); now right].
    + intros [[= <- <-] | Hin].
      * apply (Hpos k). now left.
      * apply (IH (fun k1 n1 H => Hpos k1 n1 (or_intror H)) k0 n0 Hin).
Qed.

Lemma count_loop_spec (words : list string) :
  forall TF0,
    NoDup (keys TF0) -> positive_counts TF0 ->
    NoDup (keys (fold_left count_step words TF0)) /\
    positive_counts (fold_left count_step words TF0) /\
    forall w, tf_count (fold_left count_step words TF0) w
              = tf_count TF0 w + count_occ string_dec (filter truthy words) w.
Proof.
  induction words as [| word words IH]; intros TF0 Hnd Hpos; simpl.
  - repeat split; auto.
  - unfold count_step at 2 4 6.
    destruct (truthy word) eqn:Ht.
    + destruct (IH (tf_incr word TF0)) as (H1 & H2 & H3).
      * now apply NoDup_keys_tf_incr.
      * now apply positive_counts_tf_incr.
      * repeat split; auto.
        intros w. rewrite H3. simpl.
        destruct (string_dec word w) as [-> | Hne].
        -- unfold tf_count at 1. rewrite tf_count_incr_same. lia.
        -- unfold tf_count at 1 2. now rewrite tf_count_incr_other.
    + now apply IH.
Qed.

Lemma count_words_NoDup (words : list string) :
  NoDup (keys (count_words words)).
Proof.
  apply (count_loop_spec words (TF0 := [])); [constructor | intros ? ? []].
Qed.

(** The dictionary holds exactly the non-empty words, each with the number
    of its occurrences. *)
Lemma count_words_In (words : list string) (w : string) (c : nat) :
  In (w, c) (count_words words) <->
  c = count_occ string_dec (filter truthy words) w /\ 1 <= c.
Proof.
  destruct (count_loop_spec words (TF0 := [])) as (Hnd & Hpos & Hcount);
    [constructor | intros ? ? [] |].
  fold (count_words words) in Hnd, Hpos, Hcount.
  specialize (Hcount w). cbn [tf_count dict_get plus] in Hcount.
  split.
  - intros Hin. split; [| now apply (Hpos w)].
    rewrite <- Hcount. unfold tf_count.
    now rewrite (In_dict_get _ _ _ Hnd Hin).
  - intros [-> Hc]. apply dict_get_In.
    unfold tf_count in Hcount.
    destruct (dict_get (count_words words) w) as [n |]; [now subst | lia].
Qed.

(** ** The two mappers *)

Lemma TP1_map_tf_eq (id_review review : string) :
  TP1.map_tf id_review review =
  map (fun p => ((fst p, id_review), (snd p, length (re_split (lower review)))))
      (count_words (re_split (lower review))).
Proof.
  unfold TP1.map_tf.
  generalize (length (re_split (lower review))) as n.
  generalize (count_words (re_split (lower review))) as TF.
  intros TF n.
  enough (H : forall acc : list TP1.tf_result,
             fold_left
               (fun results '(word, count) =>
                  results ++ [((word, id_review), (count, n))]) TF acc
             = acc ++ map (fun p => ((fst p, id_review), (snd p, n))) TF)
    by apply (H []).
  induction TF as [| [w c] TF IH]; intros acc; simpl.
  - now rewrite app_nil_r.
  - rewrite IH, <- app_assoc. reflexivity.
Qed.

Lemma MapReduce_map_tf_eq (review_id review : string)
      (ctx : MapReduce.context MapReduce.tf_value) :
  MapReduce.map_tf review_id review ctx =
  ctx ++ map (fun p => (fst p, (review_id, snd p, length (re_split (lower review)))))
             (count_words (re_split (lower review))).
Proof.
  unfold MapReduce.map_tf, MapReduce.write.
  generalize (length (re_split (lower review))) as n.
  generalize (count_words (re_split (lower review))) as TF.
  intros TF n. revert ctx.
  induction TF as [| [w c] TF IH]; intros ctx; simpl.
  - now rewrite app_nil_r.
  - rewrite IH, <- app_assoc. reflexivity.
Qed.

(** Every record of a document carries the number of pieces [re.split]
    returned, the empty ones included. *)
Lemma TP1_map_tf_word_count (id_review review : string) (r : TP1.tf_result) :
  In r (TP1.map_tf id_review review) ->
  snd (snd r) = length (re_split (lower review)).
Proof.
  rewrite TP1_map_tf_eq, in_map_iff. intros ([w c] & <- & _). reflexivity.
Qed.

Lemma pieces_split_by_truth (words : list string) :
  length words
  = length (filter truthy words) + count_occ string_dec words EmptyString.
Proof.
  induction words as [| w words IH]; simpl; [reflexivity |].
  destruct w as [| a w]; simpl.
  - destruct (string_dec "" ""); [lia | contradiction].
  - destruct (string_dec (String a w) ""); [discriminate | lia].
Qed.

(** The split never returns an empty list, so a document length is never
    zero. *)
Lemma re_split_length_pos (s : string) : 1 <= length (re_split s).
Proof.
  induction s as [| c s IH]; simpl; [lia |].
  destruct (is_separator c); simpl; [lia |].
  destruct (re_split s); simpl in *; lia.
Qed.

Lemma TP1_map_tf_pairs_NoDup (id review : string) :
  NoDup (map fst (TP1.map_tf id review)).
Proof.
  rewrite TP1_map_tf_eq, map_map. simpl.
  pose proof (count_words_NoDup (re_split (lower review))) as Hnd.
  unfold keys in Hnd.
  apply (Finite.Injective_map_NoDup (f := fun w : string => (w, id))) in Hnd.
  - now rewrite map_map in Hnd.
  - intros x y [= ->]. reflexivity.
Qed.

(** ** The reducer *)

Lemma write_tfidf_ok (word : string) (idf : R)
      (documents : list MapReduce.tf_value) :
  lengths_nonzero documents ->
  forall ctx,
    MapReduce.write_tfidf word idf documents ctx
    = (ctx ++ map (tfidf_entry word idf) documents, None).
Proof.
  induction documents as [| [[id tf] tw] documents IH]; intros Hnz ctx; simpl.
  - now rewrite app_nil_r.
  - rewrite truediv_ok.
    + rewrite IH.
      * unfold MapReduce.write. now rewrite <- app_assoc.
      * intros v Hv. apply Hnz. now right.
    + specialize (Hnz (id, tf, tw) (or_introl eq_refl)). simpl in Hnz. lia.
Qed.

Lemma length_pos_of_nonempty {A : Type} (l : list A) : l <> [] -> 0 < length l.
Proof. destruct l; [contradiction | simpl; lia]. Qed.

Lemma reduce_tf_idf_ok (word : string) (documents : list MapReduce.tf_value)
      (total_docs : Z) (ctx : MapReduce.context MapReduce.tfidf_value) :
  (0 < total_docs)%Z -> documents <> [] -> lengths_nonzero documents ->
  MapReduce.reduce_tf_idf word documents total_docs ctx
  = (ctx ++ map (tfidf_entry word (ln_ratio total_docs (length documents)))
                documents,
     None).
Proof.
  intros Ht Hne Hnz. unfold MapReduce.reduce_tf_idf.
  rewrite log_ratio_ok by (auto using length_pos_of_nonempty).
  now apply write_tfidf_ok.
Qed.

Lemma reduce_tf_idf_raise (word : string) (documents : list MapReduce.tf_value)
      (total_docs : Z) (ctx : MapReduce.context MapReduce.tfidf_value) :
  (total_docs <= 0)%Z -> documents <> [] ->
  MapReduce.reduce_tf_idf word documents total_docs ctx = (ctx, Some ValueError).
Proof.
  intros Ht Hne. unfold MapReduce.reduce_tf_idf.
  now rewrite log_ratio_raise by (auto using length_pos_of_nonempty).
Qed.

Lemma ln_ratio_self (n : nat) : 0 < n -> ln_ratio (Z.of_nat n) n = 0%R.
Proof.
  intros Hn. unfold ln_ratio.
  pose proof (IZR_of_nat_pos Hn) as Hpos.
  replace (IZR (Z.of_nat n) / IZR (Z.of_nat n))%R with 1%R by (field; lra).
  apply ln_1.
Qed.

Lemma ln_ratio_neg (total_docs : Z) (n : nat) :
  (0 < total_docs < Z.of_nat n)%Z -> (ln_ratio total_docs n < 0)%R.
Proof.
  intros [Ht Hlt]. unfold ln_ratio.
  assert (Hn : (0 < IZR (Z.of_nat n))%R) by (apply IZR_lt; lia).
  assert (Ht' : (0 < IZR total_docs)%R) by now apply IZR_lt.
  assert (Hlt' : (IZR total_docs < IZR (Z.of_nat n))%R) by now apply IZR_lt.
  rewrite <- ln_1. apply ln_increasing.
  - now apply Rdiv_lt_0_compat.
  - apply (Rmult_lt_reg_r (IZR (Z.of_nat n))); [exact Hn |].
    unfold Rdiv. rewrite Rmult_assoc, Rinv_l by lra. lra.
Qed.

Lemma ln_ratio_decreasing (total_docs : Z) (n1 n2 : nat) :
  (0 < total_docs)%Z -> 0 < n1 < n2 ->
  (ln_ratio total_docs n2 < ln_ratio total_docs n1)%R.
Proof.
  intros Ht [H1 H12]. unfold ln_ratio.
  assert (Hn1 : (0 < IZR (Z.of_nat n1))%R) by (apply IZR_lt; lia).
  assert (Hn2 : (0 < IZR (Z.of_nat n2))%R) by (apply IZR_lt; lia).
  assert (Hlt : (IZR (Z.of_nat n1) < IZR (Z.of_nat n2))%R) by (apply IZR_lt; lia).
  assert (Ht' : (0 < IZR total_docs)%R) by now apply IZR_lt.
  apply ln_increasing.
  - now apply Rdiv_lt_0_compat.
  - unfold Rdiv. apply Rmult_lt_compat_l; [exact Ht' |].
    now apply Rinv_lt_contravar; [apply Rmult_lt_0_compat |].
Qed.

(** What [log_ratio] returns, case by case. *)
Lemma log_ratio_cases (total_docs : Z) (n : nat) :
  0 < n ->
  ((0 < total_docs)%Z /\ log_ratio total_docs n = Ok (ln_ratio total_docs n)) \/
  ((total_docs <= 0)%Z /\ log_ratio total_docs n = Raise ValueError).
Proof.
  intros Hn. destruct (Z_lt_le_dec 0 total_docs) as [Hpos | Hle].
  - left. split; [exact Hpos | now apply log_ratio_ok].
  - right. split; [exact Hle | now apply log_ratio_raise].
Qed.

(** ** The functions of TP1.py *)

Lemma map_tf_on_reviews_eq (reviews : list (string * string)) :
  TP1.map_tf_on_reviews reviews
  = flat_map (fun p => TP1.map_tf (fst p) (snd p)) reviews.
Proof.
  unfold TP1.map_tf_on_reviews.
  enough (H : forall acc,
             fold_left
               (fun results '(review_id, review_text) =>
                  results ++ TP1.map_tf review_id review_text) reviews acc
             = acc ++ flat_map (fun p => TP1.map_tf (fst p) (snd p)) reviews)
    by apply (H []).
  induction reviews as [| [id text] reviews IH]; intros acc; simpl.
  - now rewrite app_nil_r.
  - rewrite IH, <- app_assoc. reflexivity.
Qed.

Lemma map_tf_on_reviews_word_count (reviews : list (string * string))
      (r : TP1.tf_result) :
  In r (TP1.map_tf_on_reviews reviews) -> snd (snd r) <> 0.
Proof.
  rewrite map_tf_on_reviews_eq, in_flat_map.
  intros ([id text] & _ & Hin). simpl in Hin.
  rewrite (TP1_map_tf_word_count _ _ _ Hin).
  pose proof (re_split_length_pos (lower text)). lia.
Qed.

Lemma dict_get_idf_add (word id_review k : string) (d : dict (set string)) :
  dict_get (TP1.idf_add word id_review d) k
  = if String.eqb word k
    then Some (set_add string_dec id_review (ids_or_empty d word))
    else dict_get d k.
Proof.
  unfold ids_or_empty.
  induction d as [| [k' ids] d IH]; simpl.
  - destruct (String.eqb_spec word k); reflexivity.
  - destruct (String.eqb_spec k' word) as [-> | Hk]; simpl.
    + destruct (String.eqb_spec word k); reflexivity.
    + rewrite IH. destruct (String.eqb_spec word k) as [<- | Hw].
      * destruct (String.eqb_spec k' word); [contradiction | reflexivity].
      * reflexivity.
Qed.

Lemma keys_idf_add (word id_review k : string) (d : dict (set string)) :
  In k (keys (TP1.idf_add word id_review d)) <-> k = word \/ In k (keys d).
Proof.
  induction d as [| [k' ids] d IH]; simpl.
  - intuition.
  - destruct (String.eqb_spec k' word) as [-> | Hk]; simpl.
    + intuition.
    + rewrite IH. intuition.
Qed.

Lemma NoDup_keys_idf_add (word id_review : string) (d : dict (set string)) :
  NoDup (keys d) -> NoDup (keys (TP1.idf_add word id_review d)).
Proof.
  induction d as [| [k ids] d IH]; simpl; intros Hnd.
  - constructor; [intros [] | constructor].
  - inversion Hnd as [| ? ? Hnotin Hnd']; subst.
    destruct (String.eqb_spec k word) as [-> | Hk]; simpl.
    + now constructor.
    + constructor; [| now apply IH].
      rewrite keys_idf_add. intros [E | Hin]; [now apply Hk | contradiction].
Qed.

Lemma idf_step_invariant (d : dict (set string)) (seen : list TP1.tf_result)
      (r : TP1.tf_result) :
  idf_input_of d seen -> idf_input_of (TP1.idf_step d r) (seen ++ [r]).
Proof.
  destruct r as [[w i] c0]. intros [Hnd Hinv]. split.
  - now apply NoDup_keys_idf_add.
  - intros word. simpl. rewrite dict_get_idf_add.
    specialize (Hinv word).
    destruct (String.eqb_spec w word) as [-> | Hw].
    + unfold ids_or_empty.
      destruct (dict_get d word) as [ids |].
      * destruct Hinv as (Hids & _ & Hmem). repeat split.
        -- now apply set_add_nodup.
        -- apply set_add_not_empty.
        -- intros Hin. apply set_add_iff in Hin. destruct Hin as [-> | Hin].
           ++ exists c0. apply in_or_app. right. now left.
           ++ apply Hmem in Hin. destruct Hin as (c & Hin).
              exists c. apply in_or_app. now left.
        -- intros (c & Hin). apply set_add_iff.
           apply in_app_or in Hin. destruct Hin as [Hin | [[= <- <-] | []]].
           ++ right. apply Hmem. now exists c.
           ++ now left.
      * repeat split.
        -- apply set_add_nodup. constructor.
        -- apply set_add_not_empty.
        -- intros Hin. apply set_add_iff in Hin. destruct Hin as [-> | []].
           exists c0. apply in_or_app. right. now left.
        -- intros (c & Hin). apply set_add_iff.
           apply in_app_or in Hin. destruct Hin as [Hin | [[= <- <-] | []]].
           ++ exfalso. exact (Hinv _ _ Hin).
           ++ now left.
    + destruct (dict_get d word) as [ids |].
      * destruct Hinv as (Hids & Hne & Hmem). repeat split; auto.
        -- intros Hin. apply Hmem in Hin. destruct Hin as (c & Hin).
           exists c. apply in_or_app. now left.
        -- intros (c & Hin). apply Hmem.
           apply in_app_or in Hin. destruct Hin as [Hin | [[= E _ _] | []]].
           ++ now exists c.
           ++ contradiction.
      * intros id c Hin.
        apply in_app_or in Hin. destruct Hin as [Hin | [[= E _ _] | []]].
        -- exact (Hinv _ _ Hin).
        -- contradiction.
Qed.

Lemma idf_loop_invariant (tf_results : list TP1.tf_result) :
  forall d seen,
    idf_input_of d seen ->
    idf_input_of (fold_left TP1.idf_step tf_results d) (seen ++ tf_results).
Proof.
  induction tf_results as [| r tf_results IH]; intros d seen Hinv; simpl.
  - now rewrite app_nil_r.
  - replace (seen ++ r :: tf_results) with ((seen ++ [r]) ++ tf_results)
      by now rewrite <- app_assoc.
    apply IH. now apply idf_step_invariant.
Qed.

Lemma map_idf_from_tf_spec (tf_results : list TP1.tf_result) :
  idf_input_of (TP1.map_idf_from_tf tf_results) tf_results.
Proof.
  apply (idf_loop_invariant tf_results (d := []) (seen := [])).
  split; [constructor | intros word id c []].
Qed.

Lemma idf_input_sets_nonempty (d : dict (set string))
      (seen : list TP1.tf_result) (word : string) (ids : set string) :
  idf_input_of d seen -> In (word, ids) d -> ids <> [].
Proof.
  intros [Hnd Hinv] Hin. specialize (Hinv word).
  rewrite (In_dict_get _ _ _ Hnd Hin) in Hinv. tauto.
Qed.

Lemma idf_input_has_word (d : dict (set string)) (seen : list TP1.tf_result)
      (r : TP1.tf_result) :
  idf_input_of d seen -> In r seen ->
  exists ids, dict_get d (fst (fst r)) = Some ids.
Proof.
  destruct r as [[w i] c]. intros [_ Hinv] Hin. simpl.
  specialize (Hinv w). destruct (dict_get d w) as [ids |].
  - now exists ids.
  - exfalso. exact (Hinv _ _ Hin).
Qed.

Lemma dict_get_map_values {V W : Type} (g : V -> W) (d : dict V) (k : string) :
  dict_get (map (fun p => (fst p, g (snd p))) d) k
  = option_map g (dict_get d k).
Proof.
  induction d as [| [k' v] d IH]; simpl; [reflexivity |].
  destruct (String.eqb k' k); [reflexivity | exact IH].
Qed.

Lemma calculate_idf_ok (d : dict (set string)) (total_docs : Z) :
  (0 < total_docs)%Z ->
  (forall word ids, In (word, ids) d -> ids <> []) ->
  TP1.calculate_idf d total_docs
  = Ok (map (fun p => (fst p, ln_ratio total_docs (length (snd p)))) d).
Proof.
  intros Ht. induction d as [| [w ids] d IH]; intros Hne; simpl.
  - reflexivity.
  - rewrite log_ratio_ok; auto.
    + simpl. rewrite IH; [reflexivity |].
      intros w' ids' Hin. apply (Hne w'). now right.
    + apply length_pos_of_nonempty. apply (Hne w). now left.
Qed.

Lemma calculate_idf_raise (d : dict (set string)) (total_docs : Z) :
  (total_docs <= 0)%Z -> d <> [] ->
  (forall word ids, In (word, ids) d -> ids <> []) ->
  TP1.calculate_idf d total_docs = Raise ValueError.
Proof.
  intros Ht Hd Hne. destruct d as [| [w ids] d]; [contradiction |]. simpl.
  rewrite log_ratio_raise; auto.
  apply length_pos_of_nonempty. apply (Hne w). now left.
Qed.

Lemma calculate_tfidf_ok (idf : string -> R) (idf_values : dict R)
      (tf_results : list TP1.tf_result) :
  (forall r, In r tf_results -> snd (snd r) <> 0) ->
  (forall r, In r tf_results ->
             dict_get idf_values (fst (fst r)) = Some (idf (fst (fst r)))) ->
  TP1.calculate_tfidf tf_results idf_values
  = Ok (map (tfidf_triple idf) tf_results).
Proof.
  induction tf_results as [| [[w i] [tf wc]] tf_results IH];
    intros Hnz Hget; simpl.
  - reflexivity.
  - pose proof (Hget _ (or_introl eq_refl)) as Hw. simpl in Hw.
    rewrite Hw. simpl.
    rewrite truediv_ok.
    + simpl. rewrite IH; [reflexivity | |].
      * intros r Hr. apply Hnz. now right.
      * intros r Hr. apply Hget. now right.
    + specialize (Hnz _ (or_introl eq_refl)). simpl in Hnz. lia.
Qed.

Lemma idf_then_tfidf_ok (tf_results : list TP1.tf_result) (total_docs : Z) :
  (0 < total_docs)%Z ->
  (forall r, In r tf_results -> snd (snd r) <> 0) ->
  idf_then_tfidf tf_results total_docs
  = Ok (map (tfidf_triple
               (fun w => ln_ratio total_docs (doc_frequency tf_results w)))
            tf_results).
Proof.
  intros Ht Hnz. unfold idf_then_tfidf.
  pose proof (map_idf_from_tf_spec tf_results) as Hspec.
  rewrite calculate_idf_ok; auto.
  - simpl. apply calculate_tfidf_ok; [exact Hnz |].
    intros r Hr.
    rewrite (@dict_get_map_values (set string) R
               (fun ids => ln_ratio total_docs (length ids))).
    destruct (idf_input_has_word r Hspec Hr) as (ids & Hids).
    unfold doc_frequency. rewrite Hids. reflexivity.
  - intros w ids. now apply idf_input_sets_nonempty with (seen := tf_results).
Qed.

Lemma idf_then_tfidf_raise (tf_results : list TP1.tf_result) (total_docs : Z) :
  (total_docs <= 0)%Z -> tf_results <> [] ->
  idf_then_tfidf tf_results total_docs = Raise ValueError.
Proof.
  intros Ht Hne. unfold idf_then_tfidf.
  pose proof (map_idf_from_tf_spec tf_results) as Hspec.
  rewrite calculate_idf_raise; auto.
  - destruct tf_results as [| r rest]; [contradiction |].
    destruct (idf_input_has_word r Hspec (or_introl eq_refl)) as (ids & Hids).
    intros E. rewrite E in Hids. discriminate.
  - intros w ids. now apply idf_input_sets_nonempty with (seen := tf_results).
Qed.

Lemma tfidf_of_reviews_unfold (reviews : list (string * string))
      (total_docs : Z) :
  TP1.tfidf_of_reviews reviews total_docs
  = idf_then_tfidf (TP1.map_tf_on_reviews reviews) total_docs.
Proof. reflexivity. Qed.

Lemma tfidf_of_reviews_ok (reviews : list (string * string)) (total_docs : Z) :
  (0 < total_docs)%Z ->
  TP1.tfidf_of_reviews reviews total_docs
  = Ok (map (tfidf_triple
               (fun w => ln_ratio total_docs
                           (doc_frequency (TP1.map_tf_on_reviews reviews) w)))
            (TP1.map_tf_on_reviews reviews)).
Proof.
  intros Ht. rewrite tfidf_of_reviews_unfold.
  apply idf_then_tfidf_ok; [exact Ht |].
  apply map_tf_on_reviews_word_count.
Qed.

(** ** The shuffle *)

Section Shuffle.

Context {V : Type}.

Lemma keys_group_insert (key k : string) (value : V) (groups : dict (list V)) :
  In k (keys (MRE.group_insert key value groups)) <->
  k = key \/ In k (keys groups).
Proof.
  induction groups as [| [k' vs] groups IH]; simpl.
  - intuition.
  - destruct (String.eqb_spec k' key) as [-> | Hk]; simpl.
    + intuition.
    + rewrite IH. intuition.
Qed.

Lemma NoDup_keys_group_insert (key : string) (value : V)
      (groups : dict (list V)) :
  NoDup (keys groups) -> NoDup (keys (MRE.group_insert key value groups)).
Proof.
  induction groups as [| [k vs] groups IH]; simpl; intros Hnd.
  - constructor; [intros [] | constructor].
  - inversion Hnd as [| ? ? Hnotin Hnd']; subst.
    destruct (String.eqb_spec k key) as [-> | Hk]; simpl.
    + now constructor.
    + constructor; [| now apply IH].
      rewrite keys_group_insert.
      intros [E | Hin]; [now apply Hk | contradiction].
Qed.

Lemma group_insert_nonempty (key : string) (value : V)
      (groups : dict (list V)) :
  (forall g, In g groups -> snd g <> []) ->
  forall g, In g (MRE.group_insert key value groups) -> snd g <> [].
Proof.
  induction groups as [| [k vs] groups IH]; simpl; intros Hne g.
  - intros [<- | []]. discriminate.
  - destruct (String.eqb_spec k key) as [-> | Hk]; simpl.
    + intros [<- | Hin]; simpl.
      * intros E. now apply app_eq_nil in E as [_ E].
      * apply Hne. now right.
    + intros [<- | Hin].
      * apply (Hne (k, vs)). now left.
      * apply IH; [| exact Hin]. intros g' Hg'. apply Hne. now right.
Qed.

Lemma flatten_group_insert (key : string) (value : V)
      (groups : dict (list V)) :
  Permutation (flatten (MRE.group_insert key value groups))
              ((key, value) :: flatten groups).
Proof.
  unfold flatten.
  induction groups as [| [k vs] groups IH]; simpl.
  - reflexivity.
  - destruct (String.eqb_spec k key) as [-> | Hk]; simpl.
    + rewrite map_app. simpl. rewrite <- app_assoc. simpl.
      symmetry. apply Permutation_middle.
    + rewrite IH. symmetry. apply Permutation_middle.
Qed.

Lemma shuffle_loop_spec (written : list (string * V)) :
  forall groups,
    NoDup (keys groups) -> (forall g, In g groups -> snd g <> []) ->
    let result :=
      fold_left (fun groups p => MRE.group_insert (fst p) (snd p) groups)
                written groups in
    NoDup (keys result) /\
    (forall g, In g result -> snd g <> []) /\
    Permutation (flatten result) (flatten groups ++ written).
Proof.
  induction written as [| [k v] written IH]; intros groups Hnd Hne; simpl.
  - rewrite app_nil_r. auto.
  - destruct (IH (MRE.group_insert k v groups)) as (H1 & H2 & H3).
    + now apply NoDup_keys_group_insert.
    + now apply group_insert_nonempty.
    + repeat split; auto.
      rewrite H3, flatten_group_insert. simpl. apply Permutation_middle.
Qed.

Lemma shuffle_spec (written : list (string * V)) :
  NoDup (keys (MRE.shuffle written)) /\
  (forall g, In g (MRE.shuffle written) -> snd g <> []) /\
  Permutation (flatten (MRE.shuffle written)) written.
Proof.
  apply (shuffle_loop_spec written []); [constructor | intros g []].
Qed.

Lemma key_count_app (key : string) (l1 l2 : list (string * V)) :
  key_count key (l1 ++ l2) = key_count key l1 + key_count key l2.
Proof. unfold key_count. now rewrite filter_app, length_app. Qed.

Lemma key_count_same_key (key : string) (values : list V) :
  key_count key (map (pair key) values) = length values.
Proof.
  unfold key_count. induction values as [| v values IH]; simpl; [reflexivity |].
  rewrite String.eqb_refl. simpl. now rewrite IH.
Qed.

Lemma key_count_other_key (key k : string) (values : list V) :
  k <> key -> key_count key (map (pair k) values) = 0.
Proof.
  intros Hk. unfold key_count.
  induction values as [| v values IH]; simpl; [reflexivity |].
  destruct (String.eqb_spec k key); [contradiction | exact IH].
Qed.

Lemma key_count_absent (key : string) (groups : dict (list V)) :
  ~ In key (keys groups) -> key_count key (flatten groups) = 0.
Proof.
  unfold flatten.
  induction groups as [| [k vs] groups IH]; simpl; intros Hnotin.
  - reflexivity.
  - rewrite key_count_app, key_count_other_key, IH; auto.
Qed.

Lemma key_count_perm (key : string) (l1 l2 : list (string * V)) :
  Permutation l1 l2 -> key_count key l1 = key_count key l2.
Proof.
  unfold key_count.
  induction 1 as [| p l1 l2 _ IH | p q l | l1 l2 l3 _ IH1 _ IH2]; simpl.
  - reflexivity.
  - destruct (String.eqb (fst p) key); simpl; now rewrite IH.
  - destruct (String.eqb (fst p) key), (String.eqb (fst q) key); reflexivity.
  - now rewrite IH1.
Qed.

Lemma flatten_keys (groups : dict (list V)) (p : string * V) :
  In p (flatten groups) -> In (fst p) (keys groups).
Proof.
  unfold flatten. rewrite in_flat_map. intros ([k vs] & Hg & Hp).
  simpl in Hp. apply in_map_iff in Hp. destruct Hp as (v & <- & _). simpl.
  unfold keys. change k with (fst (k, vs)). now apply in_map.
Qed.

Lemma flatten_values (groups : dict (list V)) (g : string * list V) (v : V) :
  In g groups -> In v (snd g) -> In (fst g, v) (flatten groups).
Proof.
  intros Hg Hv. unfold flatten. apply in_flat_map. exists g.
  split; [exact Hg | now apply in_map].
Qed.

End Shuffle.

(** ** The run of the job *)

Lemma reduce_phase_ok (groups : dict (list MapReduce.tf_value))
      (total_docs : Z) :
  (0 < total_docs)%Z -> groups_well_formed groups ->
  forall ctx,
    MRE.reduce_phase groups total_docs ctx
    = (ctx ++ flat_map (group_entries total_docs) groups, None).
Proof.
  intros Ht. induction groups as [| [w vs] groups IH]; intros Hwf ctx; simpl.
  - now rewrite app_nil_r.
  - destruct (Hwf (w, vs) (or_introl eq_refl)) as [Hne Hnz]. simpl in *.
    rewrite reduce_tf_idf_ok by assumption.
    rewrite IH.
    + unfold group_entries at 2. simpl. now rewrite <- app_assoc.
    + intros g Hg. apply Hwf. now right.
Qed.

Lemma reduce_phase_raise (groups : dict (list MapReduce.tf_value))
      (total_docs : Z) (ctx : MapReduce.context MapReduce.tfidf_value) :
  (total_docs <= 0)%Z -> groups <> [] -> groups_well_formed groups ->
  MRE.reduce_phase groups total_docs ctx = (ctx, Some ValueError).
Proof.
  intros Ht Hne Hwf. destruct groups as [| [w vs] groups]; [contradiction |].
  simpl. destruct (Hwf (w, vs) (or_introl eq_refl)) as [Hvs _]. simpl in Hvs.
  now rewrite reduce_tf_idf_raise.
Qed.

(** With one group per key, the entries of the groups are the entries of
    the pairs the groups stand for. *)
Lemma group_entries_flatten (total_docs : Z)
      (groups : dict (list MapReduce.tf_value)) :
  NoDup (keys groups) ->
  flat_map (group_entries total_docs) groups
  = map (written_entry total_docs (flatten groups)) (flatten groups).
Proof.
  induction groups as [| [w vs] groups IH]; intros Hnd; [reflexivity |].
  inversion Hnd as [| ? ? Hnotin Hnd']; subst.
  change (flatten ((w, vs) :: groups))
    with (map (pair w) vs ++ flatten groups).
  simpl. rewrite map_app, IH by assumption. f_equal.
  - unfold group_entries. simpl. rewrite map_map. apply map_ext.
    intros v. unfold written_entry. simpl.
    now rewrite key_count_app, key_count_same_key, key_count_absent, Nat.add_0_r.
  - apply map_ext_in. intros p Hp. unfold written_entry.
    rewrite key_count_app, key_count_other_key; [reflexivity |].
    intros ->. apply Hnotin. now apply flatten_keys.
Qed.

Lemma written_entry_perm (total_docs : Z)
      (written written' : list (string * MapReduce.tf_value))
      (p : string * MapReduce.tf_value) :
  Permutation written written' ->
  written_entry total_docs written p = written_entry total_docs written' p.
Proof.
  intros Hp. unfold written_entry. now rewrite (key_count_perm _ Hp).
Qed.

(** The entries of the groups of a shuffle are, up to their order, the
    entries of the written pairs. *)
Lemma shuffle_entries (total_docs : Z)
      (written : list (string * MapReduce.tf_value)) :
  Permutation (flat_map (group_entries total_docs) (MRE.shuffle written))
              (map (written_entry total_docs written) written).
Proof.
  destruct (shuffle_spec written) as (Hnd & _ & Hperm).
  rewrite group_entries_flatten by assumption.
  rewrite (map_ext _ _ (fun p => written_entry_perm total_docs p Hperm)).
  now apply Permutation_map.
Qed.

Lemma shuffle_well_formed (written : list (string * MapReduce.tf_value)) :
  (forall p, In p written -> snd (snd p) <> 0) ->
  groups_well_formed (MRE.shuffle written).
Proof.
  intros Hnz g Hg.
  destruct (shuffle_spec written) as (_ & Hne & Hperm).
  split; [now apply Hne |].
  intros v Hv. apply (Hnz (fst g, v)).
  apply (Permutation_in _ Hperm). now apply flatten_values.
Qed.

Lemma shuffle_nil_iff (written : list (string * MapReduce.tf_value)) :
  MRE.shuffle written = [] <-> written = [].
Proof.
  destruct (shuffle_spec written) as (_ & _ & Hperm). split.
  - intros E. rewrite E in Hperm. now apply Permutation_nil.
  - intros ->. reflexivity.
Qed.

Lemma map_phase_eq (corpus : list (string * string)) :
  MRE.map_phase corpus = map as_written (TP1.map_tf_on_reviews corpus).
Proof.
  rewrite map_tf_on_reviews_eq. unfold MRE.map_phase.
  enough (H : forall ctx,
             fold_left
               (fun ctx '(review_id, review) =>
                  MapReduce.map_tf review_id review ctx) corpus ctx
             = ctx ++ map as_written
                          (flat_map (fun p => TP1.map_tf (fst p) (snd p)) corpus))
    by apply (H []).
  induction corpus as [| [id text] corpus IH]; intros ctx; simpl.
  - now rewrite app_nil_r.
  - rewrite IH, MapReduce_map_tf_eq, TP1_map_tf_eq, map_app, map_map.
    now rewrite <- app_assoc.
Qed.

Lemma map_phase_lengths_nonzero (corpus : list (string * string))
      (p : string * MapReduce.tf_value) :
  In p (MRE.map_phase corpus) -> snd (snd p) <> 0.
Proof.
  rewrite map_phase_eq, in_map_iff. intros (r & <- & Hr).
  apply (map_tf_on_reviews_word_count _ _ Hr).
Qed.

Lemma map_phase_nil_iff (corpus : list (string * string)) :
  MRE.map_phase corpus = [] <-> TP1.map_tf_on_reviews corpus = [].
Proof.
  rewrite map_phase_eq. split.
  - apply map_eq_nil.
  - intros ->. reflexivity.
Qed.

Lemma run_job_ok (corpus : list (string * string)) (total_docs : Z) :
  (0 < total_docs)%Z ->
  MRE.run_job corpus total_docs
  = (flat_map (group_entries total_docs) (MRE.shuffle (MRE.map_phase corpus)),
     None).
Proof.
  intros Ht. unfold MRE.run_job.
  rewrite reduce_phase_ok; [reflexivity | exact Ht |].
  apply shuffle_well_formed. apply map_phase_lengths_nonzero.
Qed.

Lemma run_job_raise (corpus : list (string * string)) (total_docs : Z) :
  (total_docs <= 0)%Z -> MRE.map_phase corpus <> [] ->
  MRE.run_job corpus total_docs = ([], Some ValueError).
Proof.
  intros Ht Hne. unfold MRE.run_job. apply reduce_phase_raise.
  - exact Ht.
  - now rewrite shuffle_nil_iff.
  - apply shuffle_well_formed. apply map_phase_lengths_nonzero.
Qed.

Lemma run_job_nothing_mapped (corpus : list (string * string))
      (total_docs : Z) :
  MRE.map_phase corpus = [] -> MRE.run_job corpus total_docs = ([], None).
Proof. intros E. unfold MRE.run_job. now rewrite E. Qed.

Lemma tfidf_score_zero (tf word_count : nat) : tfidf_score tf word_count 0 = 0%R.
Proof. unfold tfidf_score. ring. Qed.


(** With a positive total, [calculate_idf] returns a dictionary that holds
    the logarithm of the ratio under every word that has a set. *)
Lemma calculate_idf_of_results (tf_results : list TP1.tf_result)
      (total_docs : Z) :
  (0 < total_docs)%Z ->
  exists idf_values,
    TP1.calculate_idf (TP1.map_idf_from_tf tf_results) total_docs
    = Ok idf_values /\
    forall word,
      0 < doc_frequency tf_results word ->
      dict_get idf_values word
      = Some (ln_ratio total_docs (doc_frequency tf_results word)).
Proof.
  intros Ht. pose proof (map_idf_from_tf_spec tf_results) as Hspec.
  eexists. split.
  - apply calculate_idf_ok; [exact Ht |].
    intros w ids. now apply idf_input_sets_nonempty with (seen := tf_results).
  - intros word Hdf.
    rewrite (@dict_get_map_values (set string) R
               (fun ids => ln_ratio total_docs (length ids))).
    unfold doc_frequency in *.
    destruct (dict_get (TP1.map_idf_from_tf tf_results) word); [reflexivity | lia].
Qed.

(** A group reduced with its own size as the total: every score is zero. *)
Lemma reduce_tf_idf_full_group (word : string)
      (documents : list MapReduce.tf_value)
      (ctx : MapReduce.context MapReduce.tfidf_value) :
  documents <> [] -> lengths_nonzero documents ->
  MapReduce.reduce_tf_idf word documents (Z.of_nat (length documents)) ctx
  = (ctx ++ map (fun v => (fst (fst v), (word, 0%R))) documents, None).
Proof.
  intros Hne Hnz.
  pose proof (length_pos_of_nonempty Hne) as Hlen.
  rewrite reduce_tf_idf_ok by (auto; lia).
  rewrite ln_ratio_self by exact Hlen.
  f_equal. f_equal. apply map_ext. intros v.
  unfold tfidf_entry. now rewrite tfidf_score_zero.
Qed.

Lemma ln_ratio_pos (total_docs : Z) (n : nat) :
  0 < n -> (Z.of_nat n < total_docs)%Z -> (0 < ln_ratio total_docs n)%R.
Proof.
  intros Hn Hlt. unfold ln_ratio.
  assert (Hn' : (0 < IZR (Z.of_nat n))%R) by (apply IZR_lt; lia).
  assert (Hlt' : (IZR (Z.of_nat n) < IZR total_docs)%R) by now apply IZR_lt.
  rewrite <- ln_1. apply ln_increasing; [lra |].
  apply (Rmult_lt_reg_r (IZR (Z.of_nat n))); [exact Hn' |].
  unfold Rdiv. rewrite Rmult_assoc, Rinv_l by lra. lra.
Qed.

(** ** Document frequencies *)

Lemma results_of_word_In (tf_results : list TP1.tf_result) (word id : string) :
  In id (map (fun r => snd (fst r)) (results_of_word tf_results word)) <->
  exists c, In ((word, id), c) tf_results.
Proof.
  unfold results_of_word. rewrite in_map_iff. split.
  - intros ([[w i] c] & <- & Hin). apply filter_In in Hin.
    destruct Hin as [Hin Hw]. simpl in *. apply String.eqb_eq in Hw. subst.
    now exists c.
  - intros (c & Hin). exists ((word, id), c). split; [reflexivity |].
    apply filter_In. split; [exact Hin | apply String.eqb_refl].
Qed.

(** The set [map_idf_from_tf] holds for a word has as many elements as
    there are distinct document ids among the results of the word. *)
Lemma doc_frequency_distinct (tf_results : list TP1.tf_result) (word : string) :
  doc_frequency tf_results word = distinct_ids_of_word tf_results word.
Proof.
  unfold doc_frequency, distinct_ids_of_word.
  destruct (map_idf_from_tf_spec tf_results) as [_ Hinv].
  specialize (Hinv word).
  destruct (dict_get (TP1.map_idf_from_tf tf_results) word) as [ids |].
  - destruct Hinv as (Hnd & _ & Hmem).
    apply Permutation_length. apply NoDup_Permutation.
    + exact Hnd.
    + apply NoDup_nodup.
    + intros id. now rewrite nodup_In, results_of_word_In.
  - destruct (results_of_word tf_results word) as [| [[w i] c] rest] eqn:E;
      [reflexivity |].
    exfalso. apply (Hinv i c).
    assert (Hin : In (w, i, c) (results_of_word tf_results word))
      by (rewrite E; now left).
    unfold results_of_word in Hin. apply filter_In in Hin.
    destruct Hin as [Hin Hw]. simpl in Hw. apply String.eqb_eq in Hw.
    now subst.
Qed.

Lemma results_of_word_perm (l1 l2 : list TP1.tf_result) (word : string) :
  Permutation l1 l2 ->
  Permutation (results_of_word l1 word) (results_of_word l2 word).
Proof.
  unfold results_of_word.
  induction 1 as [| r l1 l2 _ IH | r1 r2 l | l1 l2 l3 _ IH1 _ IH2]; simpl.
  - reflexivity.
  - destruct (String.eqb (fst (fst r)) word); [now constructor | exact IH].
  - destruct (String.eqb (fst (fst r1)) word),
             (String.eqb (fst (fst r2)) word);
      try reflexivity. apply perm_swap.
  - now rewrite IH1.
Qed.

Lemma doc_frequency_perm (l1 l2 : list TP1.tf_result) (word : string) :
  Permutation l1 l2 -> doc_frequency l1 word = doc_frequency l2 word.
Proof.
  intros Hp. rewrite !doc_frequency_distinct. unfold distinct_ids_of_word.
  apply Permutation_length. apply NoDup_Permutation.
  - apply NoDup_nodup.
  - apply NoDup_nodup.
  - intros id. rewrite !nodup_In, !results_of_word_In.
    split; intros (c & Hin); exists c.
    + now apply (Permutation_in _ Hp).
    + now apply (Permutation_in _ (Permutation_sym Hp)).
Qed.

Lemma map_tf_on_reviews_ids (corpus : list (string * string))
      (r : TP1.tf_result) :
  In r (TP1.map_tf_on_reviews corpus) -> In (snd (fst r)) (map fst corpus).
Proof.
  rewrite map_tf_on_reviews_eq, in_flat_map.
  intros ([id text] & Hdoc & Hr). simpl in Hr.
  rewrite TP1_map_tf_eq in Hr. apply in_map_iff in Hr.
  destruct Hr as (p & <- & _). simpl.
  change id with (fst (id, text)). now apply in_map.
Qed.

(** Distinct document ids give distinct (word, document) pairs. *)
Lemma map_tf_on_reviews_NoDup (corpus : list (string * string)) :
  NoDup (map fst corpus) -> NoDup (map fst (TP1.map_tf_on_reviews corpus)).
Proof.
  rewrite map_tf_on_reviews_eq.
  induction corpus as [| [id text] corpus IH]; simpl; intros Hnd.
  - constructor.
  - inversion Hnd as [| ? ? Hnotin Hnd']; subst.
    rewrite map_app. apply NoDup_app.
    + apply TP1_map_tf_pairs_NoDup.
    + now apply IH.
    + intros [w i] Hin1 Hin2.
      apply in_map_iff in Hin1. destruct Hin1 as (r1 & E1 & Hr1).
      apply in_map_iff in Hin2. destruct Hin2 as (r2 & E2 & Hr2).
      rewrite TP1_map_tf_eq in Hr1. apply in_map_iff in Hr1.
      destruct Hr1 as (p & <- & _). simpl in E1. injection E1 as _ <-.
      rewrite <- map_tf_on_reviews_eq in Hr2.
      apply map_tf_on_reviews_ids in Hr2. rewrite E2 in Hr2. simpl in Hr2.
      contradiction.
Qed.

Lemma results_of_word_ids_NoDup (tf_results : list TP1.tf_result)
      (word : string) :
  NoDup (map fst tf_results) ->
  NoDup (map (fun r => snd (fst r)) (results_of_word tf_results word)).
Proof.
  intros Hnd. unfold results_of_word.
  apply (NoDup_map_inv (pair word)). rewrite map_map.
  induction tf_results as [| [[w i] c] tf_results IH]; simpl.
  - constructor.
  - inversion Hnd as [| ? ? Hnotin Hnd']; subst.
    destruct (String.eqb_spec w word) as [-> | Hw]; simpl; [| now apply IH].
    constructor; [| now apply IH].
    intros Hin. apply Hnotin. apply in_map_iff in Hin.
    destruct Hin as ([[w' i'] c'] & [= <-] & Hin').
    apply filter_In in Hin'. destruct Hin' as [Hin' Hw'].
    simpl in Hw'. apply String.eqb_eq in Hw'. subst.
    apply in_map_iff. now exists ((word, i'), c').
Qed.

(** With distinct (word, document) pairs the document frequency of a word
    is the number of pairs written under the word. *)
Lemma doc_frequency_key_count (tf_results : list TP1.tf_result)
      (word : string) :
  NoDup (map fst tf_results) ->
  doc_frequency tf_results word
  = key_count word (map as_written tf_results).
Proof.
  intros Hnd. rewrite doc_frequency_distinct. unfold distinct_ids_of_word.
  rewrite nodup_fixed_point by now apply results_of_word_ids_NoDup.
  rewrite length_map. unfold results_of_word, key_count. clear Hnd.
  induction tf_results as [| [[w i] c] tf_results IH]; simpl; [reflexivity |].
  destruct (String.eqb w word); simpl; now rewrite IH.
Qed.

(** ** Groups of a shuffle *)

Lemma group_segment {V : Type} (groups : dict (list V)) (g : string * list V) :
  In g groups ->
  exists l1 l2, flatten groups = l1 ++ map (pair (fst g)) (snd g) ++ l2.
Proof.
  intros Hg. apply in_split in Hg. destruct Hg as (g1 & g2 & ->).
  exists (flatten g1), (flatten g2). unfold flatten.
  now rewrite flat_map_app.
Qed.

Lemma group_ids_NoDup (written : list (string * MapReduce.tf_value))
      (g : string * list MapReduce.tf_value) :
  NoDup (map word_and_doc written) -> In g (MRE.shuffle written) ->
  NoDup (map (fun v => fst (fst v)) (snd g)).
Proof.
  intros Hnd Hg.
  destruct (shuffle_spec written) as (_ & _ & Hperm).
  apply (Permutation_map word_and_doc) in Hperm.
  apply (Permutation_NoDup (Permutation_sym Hperm)) in Hnd.
  destruct (group_segment _ _ Hg) as (l1 & l2 & E).
  rewrite E, !map_app in Hnd.
  apply NoDup_app_remove_l, NoDup_app_remove_r in Hnd.
  rewrite map_map in Hnd. unfold word_and_doc in Hnd. simpl in Hnd.
  apply (NoDup_map_inv (pair (fst g))). now rewrite map_map.
Qed.

Lemma word_and_doc_as_written (tf_results : list TP1.tf_result) :
  map word_and_doc (map as_written tf_results) = map fst tf_results.
Proof.
  rewrite map_map. apply map_ext. now intros [[w i] c].
Qed.

Lemma group_ids_in_corpus (corpus : list (string * string))
      (g : string * list MapReduce.tf_value) (v : MapReduce.tf_value) :
  In g (MRE.shuffle (MRE.map_phase corpus)) -> In v (snd g) ->
  In (fst (fst v)) (map fst corpus).
Proof.
  intros Hg Hv.
  destruct (shuffle_spec (MRE.map_phase corpus)) as (_ & _ & Hperm).
  pose proof (Permutation_in _ Hperm (flatten_values _ g v Hg Hv)) as Hin.
  rewrite map_phase_eq in Hin. apply in_map_iff in Hin.
  destruct Hin as (r & E & Hr).
  apply map_tf_on_reviews_ids in Hr.
  destruct r as [[w i] [tf wc]]. unfold as_written in E. simpl in E.
  injection E as _ <-. exact Hr.
Qed.

(** ** Order of the documents and of the tasks *)

Lemma map_tf_on_reviews_perm (corpus corpus' : list (string * string)) :
  Permutation corpus corpus' ->
  Permutation (TP1.map_tf_on_reviews corpus) (TP1.map_tf_on_reviews corpus').
Proof.
  intros Hp. rewrite !map_tf_on_reviews_eq. now apply Permutation_flat_map.
Qed.

Lemma idf_then_tfidf_perm (l l' : list TP1.tf_result) (total_docs : Z) :
  (forall r, In r l -> snd (snd r) <> 0) ->
  Permutation l l' ->
  same_result (idf_then_tfidf l total_docs) (idf_then_tfidf l' total_docs).
Proof.
  intros Hnz Hp.
  assert (Hnz' : forall r, In r l' -> snd (snd r) <> 0).
  { intros r Hr. apply Hnz. now apply (Permutation_in _ (Permutation_sym Hp)). }
  destruct (Z_lt_le_dec 0 total_docs) as [Ht | Ht].
  - rewrite !idf_then_tfidf_ok by assumption. simpl.
    rewrite (map_ext
               (tfidf_triple (fun w => ln_ratio total_docs (doc_frequency l w)))
               (tfidf_triple (fun w => ln_ratio total_docs (doc_frequency l' w)))).
    + now apply Permutation_map.
    + intros r. unfold tfidf_triple. now rewrite (doc_frequency_perm _ Hp).
  - destruct l as [| r l].
    + apply Permutation_nil in Hp. subst. simpl. constructor.
    + rewrite !idf_then_tfidf_raise; try assumption; try discriminate.
      * reflexivity.
      * intros ->. apply Permutation_sym, Permutation_nil in Hp. discriminate.
Qed.

Lemma reduce_phase_perm (written written' : list (string * MapReduce.tf_value))
      (groups' : dict (list MapReduce.tf_value)) (total_docs : Z) :
  (forall p, In p written -> snd (snd p) <> 0) ->
  Permutation written written' ->
  Permutation (MRE.shuffle written') groups' ->
  same_outcome (MRE.reduce_phase (MRE.shuffle written) total_docs [])
               (MRE.reduce_phase groups' total_docs []).
Proof.
  intros Hnz Hp Hg.
  assert (Hnz' : forall p, In p written' -> snd (snd p) <> 0).
  { intros p Hin. apply Hnz.
    now apply (Permutation_in _ (Permutation_sym Hp)). }
  assert (Hwf' : groups_well_formed groups').
  { intros g Hin. apply (shuffle_well_formed _ Hnz').
    now apply (Permutation_in _ (Permutation_sym Hg)). }
  pose proof (shuffle_well_formed _ Hnz) as Hwf.
  destruct (Z_lt_le_dec 0 total_docs) as [Ht | Ht].
  - rewrite !reduce_phase_ok by assumption. split; [| reflexivity]. simpl.
    rewrite shuffle_entries.
    rewrite <- (Permutation_flat_map (group_entries total_docs) Hg).
    rewrite shuffle_entries.
    rewrite (map_ext _ _ (fun p => written_entry_perm total_docs p Hp)).
    now apply Permutation_map.
  - destruct written as [| p written].
    + apply Permutation_nil in Hp. subst written'.
      change (MRE.shuffle []) with (@nil (string * list MapReduce.tf_value)) in *.
      apply Permutation_nil in Hg. subst groups'. split; reflexivity.
    + rewrite !reduce_phase_raise; try assumption.
      * split; reflexivity.
      * intros ->. apply Permutation_sym, Permutation_nil in Hg.
        apply shuffle_nil_iff in Hg. subst written'.
        apply Permutation_sym, Permutation_nil in Hp. discriminate.
      * intros E. apply shuffle_nil_iff in E. discriminate.
Qed.

(** ** The two programs compared *)

Lemma as_triple_written_entry (tf_results : list TP1.tf_result)
      (total_docs : Z) (r : TP1.tf_result) :
  NoDup (map fst tf_results) ->
  as_triple (written_entry total_docs (map as_written tf_results) (as_written r))
  = tfidf_triple (fun w => ln_ratio total_docs (doc_frequency tf_results w)) r.
Proof.
  intros Hnd. destruct r as [[w i] [tf wc]].
  unfold as_triple, written_entry, tfidf_entry, tfidf_triple, as_written. simpl.
  now rewrite doc_frequency_key_count.
Qed.

Lemma In_as_triple (out : list (string * MapReduce.tfidf_value))
      (d t : string) (s : R) :
  In (d, t, s) (map as_triple out) <-> In (d, (t, s)) out.
Proof.
  rewrite in_map_iff. split.
  - intros ([d' [t' s']] & [= <- <- <-] & Hin). exact Hin.
  - intros Hin. now exists (d, (t, s)).
Qed.

(** ** The scenario of the specification *)

(** The corpus [doc1: the cat sat], [doc2: the dog sat]: the query [the],
    a word of both documents, gets a zero score in each; the query [cat]
    gets the one score (1/3) ln 2; the query [bird] gets nothing. *)
Example scenario_two_documents :
  let corpus := [("doc1", "the cat sat"); ("doc2", "the dog sat")] in
  TP1.process_reviews corpus "the" = Ok [("doc1", 0%R); ("doc2", 0%R)] /\
  TP1.process_reviews corpus "cat" = Ok [("doc1", (1 / 3 * ln 2)%R)] /\
  TP1.process_reviews corpus "bird" = Ok [].
Proof.
  cbv zeta. unfold TP1.process_reviews.
  rewrite tfidf_of_reviews_ok by (simpl; lia).
  assert (Etf : TP1.map_tf_on_reviews
                  [("doc1", "the cat sat"); ("doc2", "the dog sat")]
                = [(("the", "doc1"), (1, 3)); (("cat", "doc1"), (1, 3));
                   (("sat", "doc1"), (1, 3)); (("the", "doc2"), (1, 3));
                   (("dog", "doc2"), (1, 3)); (("sat", "doc2"), (1, 3))])
    by reflexivity.
  rewrite Etf.
  set (tfs := [(("the", "doc1"), (1, 3)); (("cat", "doc1"), (1, 3));
               (("sat", "doc1"), (1, 3)); (("the", "doc2"), (1, 3));
               (("dog", "doc2"), (1, 3)); (("sat", "doc2"), (1, 3))]).
  assert (E2 : forall w, doc_frequency tfs w = 2 ->
                         ln_ratio (Z.of_nat 2) (doc_frequency tfs w) = 0%R)
    by (intros w ->; apply ln_ratio_self; lia).
  assert (E1 : forall w, doc_frequency tfs w = 1 ->
                         ln_ratio (Z.of_nat 2) (doc_frequency tfs w) = ln 2).
  { intros w ->. unfold ln_ratio. simpl. f_equal. lra. }
  unfold tfs at 2 4 6. cbn [map TP1.filter_term_tfidf bind tfidf_triple fst snd].
  change (length [("doc1", "the cat sat"); ("doc2", "the dog sat")]) with 2.
  rewrite (E2 "the"), (E2 "sat"), (E1 "cat"), (E1 "dog") by reflexivity.
  rewrite !tfidf_score_zero.
  cbn [TP1.filter_term_tfidf String.eqb Ascii.eqb Bool.eqb].
  repeat split.
Qed.

(** ** Binary64 *)

(** The model of [/] against CPython: 1/3, 10**30/7 and (2**60+1)/3 are
    the floats [0x1.5555555555555p-2], [0x1.cd98a8b00a10bp+96] and
    [0x1.5555555555555p+58]; a quotient below the smallest float is [0.0]
    and one above the largest raises. *)
Example binary64_truediv_values :
  Binary64.truediv 1 3 = Ok (S754_finite false 6004799503160661 (-54)) /\
  Binary64.truediv (10 ^ 30) 7 = Ok (S754_finite false 8120488408686859 44) /\
  Binary64.truediv (2 ^ 60 + 1) 3 = Ok (S754_finite false 6004799503160661 6) /\
  Binary64.truediv 1 (10 ^ 400) = Ok (S754_zero false) /\
  Binary64.truediv (10 ^ 400) 1 = Raise OverflowError /\
  Binary64.truediv 1 0 = Raise ZeroDivisionError.
Proof. repeat split; vm_compute; reflexivity. Qed.

Lemma binary64_div_self (p : positive) :
  SFdiv Binary64.prec Binary64.emax
        (S754_finite false p 0) (S754_finite false p 0)
  = Binary64.one.
Proof.
  unfold SFdiv, SFdiv_core_binary.
  replace (Zdigits2 (Zpos p) + 0 - (Zdigits2 (Zpos p) + 0))%Z with 0%Z by lia.
  change (Z.min (fexp Binary64.prec Binary64.emax 0) (0 - 0)) with (-53)%Z.
  change (0 - 0 - -53)%Z with 53%Z.
  cbv iota beta.
  replace (Z.shiftl (Zpos p) 53) with (9007199254740992 * Zpos p)%Z
    by (rewrite Z.shiftl_mul_pow2 by lia; lia).
  assert (E : Z.div_eucl (9007199254740992 * Zpos p) (Zpos p)
              = (9007199254740992, 0)%Z).
  { pose proof (Z.div_eucl_eq (9007199254740992 * Zpos p) (Zpos p)) as H.
    pose proof (Z.mod_pos_bound (9007199254740992 * Zpos p) (Zpos p)) as Hb.
    unfold Z.modulo, Z.div in *.
    destruct (Z.div_eucl (9007199254740992 * Zpos p) (Zpos p)) as [q r].
    assert (Hr : (0 <= r < Zpos p)%Z) by (apply Hb; lia).
    assert (Heq : (9007199254740992 * Zpos p = Zpos p * q + r)%Z)
      by (apply H; lia).
    assert (q = 9007199254740992%Z) by nia. subst q.
    f_equal. lia. }
  rewrite E.
  assert (L : new_location (Zpos p) 0 = loc_Exact).
  { unfold new_location. destruct (Z.even (Zpos p)); reflexivity. }
  rewrite L. vm_compute. reflexivity.
Qed.

(** A positive int divided by itself is exactly [1.0]. *)
Lemma binary64_truediv_self (n : Z) :
  (0 < n)%Z -> Binary64.truediv n n = Ok Binary64.one.
Proof.
  intros Hn. destruct n as [| p | p]; try lia.
  unfold Binary64.truediv. simpl (Z.pos p =? 0)%Z. cbv iota.
  unfold Binary64.of_int. rewrite binary64_div_self. reflexivity.
Qed.

(** The quotient of two positive ints is a float that is zero or finite,
    with the sign bit clear. *)
Lemma binary64_truediv_positive (a b : Z) (q : spec_float) :
  (0 < a)%Z -> (0 < b)%Z -> Binary64.truediv a b = Ok q ->
  q = S754_zero false \/ exists m e, q = S754_finite false m e.
Proof.
  intros Ha Hb. destruct a as [| pa | pa]; try lia.
  destruct b as [| pb | pb]; try lia.
  unfold Binary64.truediv. simpl (Z.pos pb =? 0)%Z. cbv iota.
  unfold Binary64.of_int, SFdiv.
  generalize Binary64.prec as prec, Binary64.emax as emax. intros prec emax.
  destruct (SFdiv_core_binary _ _ _ _ _ _) as [[mz ez] lz].
  unfold binary_round_aux.
  destruct (shr_fexp _ _ mz ez lz) as [mrs' e'].
  destruct (shr_fexp _ _ _ e' loc_Exact) as [mrs'' e''].
  destruct (shr_m mrs'') as [| m | m]; simpl.
  - intros [= <-]. now left.
  - destruct (e'' <=? emax - prec)%Z; simpl.
    + intros [= <-]. right. now exists m, e''.
    + discriminate.
  - discriminate.
Qed.

(** Such a quotient times [0.0] is [0.0]. *)
Lemma binary64_mul_zero (a b : Z) (q : spec_float) :
  (0 < a)%Z -> (0 < b)%Z -> Binary64.truediv a b = Ok q ->
  Binary64.mul q Binary64.zero = Binary64.zero.
Proof.
  intros Ha Hb Hq.
  destruct (binary64_truediv_positive Ha Hb Hq) as [-> | (m & e & ->)];
    reflexivity.
Qed.

(** * The properties of the specification *)

(** C1.  The document length the mappers emit is the number of pieces of
    the split, not the number of non-empty tokens: on the review [a, b]
    the comma followed by a space yields an empty piece, the two tokens
    [a] and [b] are each emitted with document length 3. *)
Theorem map_tf_doc_length_counts_empty_pieces :
  re_split (lower "a, b") = ["a"; ""; "b"] /\
  tokens "a, b" = ["a"; "b"] /\
  TP1.map_tf "d" "a, b" = [(("a", "d"), (1, 3)); (("b", "d"), (1, 3))] /\
  MapReduce.map_tf "d" "a, b" [] = [("a", ("d", 1, 3)); ("b", ("d", 1, 3))].
Proof. repeat split; reflexivity. Qed.

(** C2, the input that refutes it.  A group of two records reduced with a
    total of one document: no exception, two entries written, each with a
    negative score. *)
Lemma reduce_tf_idf_accepts_small_total :
  (1 < Z.of_nat (length [("d1", 1, 1); ("d2", 1, 1)]))%Z /\
  exists out,
    MapReduce.reduce_tf_idf "w" [("d1", 1, 1); ("d2", 1, 1)] 1 [] = (out, None) /\
    length out = 2 /\
    forall id s, In (id, ("w", s)) out -> (s < 0)%R.
Proof.
  split; [simpl; lia |].
  eexists. split; [| split].
  - apply reduce_tf_idf_ok; [lia | discriminate |].
    intros v [<- | [<- | []]]; discriminate.
  - reflexivity.
  - assert (Hneg : (ln_ratio 1 2 < 0)%R) by (apply ln_ratio_neg; simpl; lia).
    intros id s [[= <- <-] | [[= <- <-] | []]];
      unfold tfidf_score; simpl; lra.
Qed.

(** C2, as the code has it.  The reducer compares nothing with the size of
    the group.  For a group of records with non-zero document lengths and a
    total below the size of the group: when the total is positive the
    logarithm is negative, no exception is raised and one entry is written
    per record; when the total is zero or negative [math.log] raises
    [ValueError] before anything is written.  [calculate_idf] likewise
    stores a negative value under a word whose set is larger than a
    positive total. *)
Theorem reduce_tf_idf_small_total
        (word : string) (documents : list MapReduce.tf_value)
        (total_docs : Z) (ctx : MapReduce.context MapReduce.tfidf_value) :
  documents <> [] -> lengths_nonzero documents ->
  (total_docs < Z.of_nat (length documents))%Z ->
  ((0 < total_docs)%Z ->
   (ln_ratio total_docs (length documents) < 0)%R /\
   MapReduce.reduce_tf_idf word documents total_docs ctx
   = (ctx ++ map (tfidf_entry word (ln_ratio total_docs (length documents)))
                 documents,
      None) /\
   forall tf_results w,
     (total_docs < Z.of_nat (doc_frequency tf_results w))%Z ->
     exists idf_values idf,
       TP1.calculate_idf (TP1.map_idf_from_tf tf_results) total_docs
       = Ok idf_values /\
       dict_get idf_values w = Some idf /\ (idf < 0)%R) /\
  ((total_docs <= 0)%Z ->
   MapReduce.reduce_tf_idf word documents total_docs ctx
   = (ctx, Some ValueError)).
Proof.
  intros Hne Hnz Hlt. split.
  - intros Ht. split; [| split].
    + apply ln_ratio_neg. lia.
    + now apply reduce_tf_idf_ok.
    + intros tf_results w Hw.
      destruct (calculate_idf_of_results tf_results Ht)
        as (idf_values & Hidf & Hget).
      exists idf_values, (ln_ratio total_docs (doc_frequency tf_results w)).
      split; [exact Hidf | split].
      * apply Hget. lia.
      * apply ln_ratio_neg. lia.
  - intros Ht. now apply reduce_tf_idf_raise.
Qed.

(** The theorem at a group of two records and a total of one. *)
Lemma reduce_tf_idf_small_total_witness :
  (ln_ratio 1 2 < 0)%R /\
  MapReduce.reduce_tf_idf "w" [("d1", 1, 1); ("d2", 1, 1)] 1 []
  = ([] ++ map (tfidf_entry "w" (ln_ratio 1 2)) [("d1", 1, 1); ("d2", 1, 1)],
     None).
Proof.
  assert (Hne : [("d1", 1, 1); ("d2", 1, 1)] <> @nil MapReduce.tf_value)
    by discriminate.
  assert (Hnz : lengths_nonzero [("d1", 1, 1); ("d2", 1, 1)])
    by (intros v [<- | [<- | []]]; discriminate).
  destruct (proj1 (@reduce_tf_idf_small_total
                     "w" [("d1", 1, 1); ("d2", 1, 1)] 1%Z [] Hne Hnz eq_refl)
                  eq_refl)
    as (H1 & H2 & _).
  split; [exact H1 | exact H2].
Defined.

(** C3, the input that refutes it.  With no document at all the total is
    zero and nothing raises: [process_reviews], which takes the number of
    reviews as the total, returns the empty list.  The same holds for a
    total of zero and one document without a token. *)
Lemma zero_total_docs_empty_corpus :
  TP1.process_reviews [] "after" = Ok [] /\
  TP1.tfidf_of_reviews [] 0 = Ok [] /\
  TP1.tfidf_of_reviews [("d", "...")] 0 = Ok [].
Proof. repeat split; reflexivity. Qed.

(** C3, as the code has it.  With a total of zero, an exception is raised
    exactly when the mappers have produced at least one result: then
    [math.log] raises [ValueError] in the first computation of an inverse
    document frequency, before any entry is produced, in [calculate_idf]
    and so in the pure pipeline, and in the reducer, which leaves its
    context as it found it.  When the mappers have produced nothing, no
    exception is raised and the result is empty. *)
Theorem zero_total_docs_raises_when_something_mapped
        (corpus : list (string * string)) :
  (TP1.map_tf_on_reviews corpus <> [] ->
   TP1.calculate_idf (TP1.map_idf_from_tf (TP1.map_tf_on_reviews corpus)) 0
   = Raise ValueError /\
   TP1.tfidf_of_reviews corpus 0 = Raise ValueError) /\
  (TP1.map_tf_on_reviews corpus = [] ->
   TP1.tfidf_of_reviews corpus 0 = Ok []) /\
  (forall word documents ctx,
      documents <> [] ->
      MapReduce.reduce_tf_idf word documents 0 ctx = (ctx, Some ValueError)).
Proof.
  split; [| split].
  - intros Hne.
    pose proof (map_idf_from_tf_spec (TP1.map_tf_on_reviews corpus)) as Hspec.
    assert (Hidf : TP1.calculate_idf
                     (TP1.map_idf_from_tf (TP1.map_tf_on_reviews corpus)) 0
                   = Raise ValueError).
    { apply calculate_idf_raise; [lia | |].
      - destruct (TP1.map_tf_on_reviews corpus) as [| r rest];
          [contradiction |].
        destruct (idf_input_has_word r Hspec (or_introl eq_refl))
          as (ids & Hids).
        intros E. rewrite E in Hids. discriminate.
      - intros w ids.
        now apply idf_input_sets_nonempty
          with (seen := TP1.map_tf_on_reviews corpus). }
    split; [exact Hidf |].
    unfold TP1.tfidf_of_reviews. now rewrite Hidf.
  - intros E. rewrite tfidf_of_reviews_unfold, E. reflexivity.
  - intros word documents ctx Hne. apply reduce_tf_idf_raise; [lia | exact Hne].
Qed.

(** The theorem at a corpus of one document with three tokens. *)
Lemma zero_total_docs_witness :
  TP1.tfidf_of_reviews [("doc1", "the cat sat")] 0 = Raise ValueError.
Proof.
  assert (Hne : TP1.map_tf_on_reviews [("doc1", "the cat sat")] <> [])
    by discriminate.
  exact (proj2 (proj1 (zero_total_docs_raises_when_something_mapped
                         [("doc1", "the cat sat")]) Hne)).
Defined.

(** C4, the input that refutes it.  Two documents with the same id and the
    same text: the group of the word has two records and one distinct id;
    with a total of two the reducer computes the logarithm of 2/2, not of
    2/1, and writes zero scores. *)
Lemma repeated_doc_id_counted_twice :
  MRE.shuffle (MRE.map_phase [("a", "x"); ("a", "x")])
  = [("x", [("a", 1, 1); ("a", 1, 1)])] /\
  length [("a", 1, 1); ("a", 1, 1)] = 2 /\
  distinct_doc_ids [("a", 1, 1); ("a", 1, 1)] = 1 /\
  MapReduce.reduce_tf_idf "x" [("a", 1, 1); ("a", 1, 1)] 2 []
  = ([("a", ("x", 0%R)); ("a", ("x", 0%R))], None) /\
  exists idf,
    log_ratio 2 (distinct_doc_ids [("a", 1, 1); ("a", 1, 1)]) = Ok idf /\
    idf <> 0%R.
Proof.
  repeat split; try reflexivity.
  - apply (reduce_tf_idf_full_group "x" (documents := [("a", 1, 1); ("a", 1, 1)]) []).
    + discriminate.
    + intros v [<- | [<- | []]]; discriminate.
  - exists (ln_ratio 2 1). split.
    + change (distinct_doc_ids [("a", 1, 1); ("a", 1, 1)]) with 1.
      apply log_ratio_ok; lia.
    + assert (H : (0 < ln_ratio 2 1)%R) by (apply ln_ratio_pos; simpl; lia).
      lra.
Qed.

(** C4, as the code has it.  [calculate_idf] takes the size of the set of
    a word, which is the number of distinct document ids among the mapper
    results of the word and lies between 1 and the number of documents.
    The reducer takes the number of records of the group; when the
    document ids of the corpus are pairwise distinct this is the number of
    distinct document ids of the group, and lies between 1 and the number
    of documents. *)
Theorem doc_frequency_counts (corpus : list (string * string)) :
  (forall word ids,
      dict_get (TP1.map_idf_from_tf (TP1.map_tf_on_reviews corpus)) word
      = Some ids ->
      length ids = distinct_ids_of_word (TP1.map_tf_on_reviews corpus) word /\
      0 < length ids <= length corpus) /\
  (NoDup (map fst corpus) ->
   forall g,
     In g (MRE.shuffle (MRE.map_phase corpus)) ->
     length (snd g) = distinct_doc_ids (snd g) /\
     0 < length (snd g) <= length corpus /\
     forall total_docs ctx,
       MapReduce.reduce_tf_idf (fst g) (snd g) total_docs ctx
       = match log_ratio total_docs (distinct_doc_ids (snd g)) with
         | Raise e => (ctx, Some e)
         | Ok idf => MapReduce.write_tfidf (fst g) idf (snd g) ctx
         end).
Proof.
  split.
  - intros word ids Hget.
    pose proof (doc_frequency_distinct (TP1.map_tf_on_reviews corpus) word) as Hd.
    unfold doc_frequency in Hd. rewrite Hget in Hd.
    split; [exact Hd |].
    destruct (map_idf_from_tf_spec (TP1.map_tf_on_reviews corpus)) as [_ Hinv].
    specialize (Hinv word). rewrite Hget in Hinv.
    destruct Hinv as (Hnd & Hne & Hmem). split.
    + now apply length_pos_of_nonempty.
    + rewrite <- (length_map fst corpus). apply NoDup_incl_length; [exact Hnd |].
      intros id Hid. apply Hmem in Hid. destruct Hid as (c & Hin).
      apply (map_tf_on_reviews_ids _ _ Hin).
  - intros Hnd g Hg.
    assert (Hids : NoDup (map (fun v => fst (fst v)) (snd g))).
    { apply (@group_ids_NoDup (MRE.map_phase corpus) g); [| exact Hg].
      rewrite map_phase_eq, word_and_doc_as_written.
      now apply map_tf_on_reviews_NoDup. }
    assert (Hlen : length (snd g) = distinct_doc_ids (snd g)).
    { unfold distinct_doc_ids.
      now rewrite nodup_fixed_point, length_map by exact Hids. }
    split; [exact Hlen | split; [split |]].
    + apply length_pos_of_nonempty.
      destruct (shuffle_spec (MRE.map_phase corpus)) as (_ & Hne & _).
      now apply Hne.
    + pose proof (@NoDup_incl_length _ _ (map fst corpus) Hids) as Hle.
      rewrite !length_map in Hle. apply Hle.
      intros id Hid. apply in_map_iff in Hid. destruct Hid as (v & <- & Hv).
      now apply (group_ids_in_corpus corpus g).
    + intros total_docs ctx. unfold MapReduce.reduce_tf_idf.
      now rewrite Hlen.
Qed.

(** The theorem at the group of [the] in the two documents of the scenario
    of the specification. *)
Lemma doc_frequency_counts_witness :
  length [("doc1", 1, 3); ("doc2", 1, 3)]
  = distinct_doc_ids [("doc1", 1, 3); ("doc2", 1, 3)] /\
  0 < length [("doc1", 1, 3); ("doc2", 1, 3)] <= 2.
Proof.
  assert (Hnd : NoDup (map fst [("doc1", "the cat sat");
                                ("doc2", "the dog sat")])).
  { repeat constructor; simpl; intuition discriminate. }
  assert (Hg : In ("the", [("doc1", 1, 3); ("doc2", 1, 3)])
                  (MRE.shuffle (MRE.map_phase [("doc1", "the cat sat");
                                               ("doc2", "the dog sat")])))
    by (left; reflexivity).
  destruct (proj2 (doc_frequency_counts [("doc1", "the cat sat");
                                         ("doc2", "the dog sat")])
                  Hnd _ Hg) as (H1 & H2 & _).
  split; [exact H1 | exact H2].
Defined.

(** C5.  A mapper emits a record for a term of a document exactly when the
    term is one of the document's non-empty tokens; the record's raw count
    is the number of occurrences of the term among those tokens, and no
    term gets two records.  This holds for the mapper of each program. *)
Theorem map_tf_emits_exact_counts (id review : string) :
  (forall t c,
      (exists l, In ((t, id), (c, l)) (TP1.map_tf id review)) <->
      In t (tokens review) /\ c = count_occ string_dec (tokens review) t) /\
  NoDup (map fst (TP1.map_tf id review)) /\
  (forall ctx, exists written,
      MapReduce.map_tf id review ctx = ctx ++ written /\
      NoDup (map fst written) /\
      forall t c,
        (exists l, In (t, (id, c, l)) written) <->
        In t (tokens review) /\ c = count_occ string_dec (tokens review) t).
Proof.
  assert (Hcore : forall t c,
             In (t, c) (count_words (re_split (lower review))) <->
             In t (tokens review) /\ c = count_occ string_dec (tokens review) t).
  { intros t c. rewrite count_words_In. unfold tokens.
    rewrite (count_occ_In string_dec). split.
    - intros [-> Hc]. split; [lia | reflexivity].
    - intros [Hc ->]. split; [reflexivity | lia]. }
  split; [| split].
  - intros t c. rewrite <- Hcore, TP1_map_tf_eq. split.
    + intros (l & Hin). apply in_map_iff in Hin.
      destruct Hin as ([w n] & [= <- <- _] & Hin). exact Hin.
    + intros Hin. exists (length (re_split (lower review))).
      apply in_map_iff. now exists (t, c).
  - apply TP1_map_tf_pairs_NoDup.
  - intros ctx. eexists. split; [apply MapReduce_map_tf_eq | split].
    + rewrite map_map. simpl. apply count_words_NoDup.
    + intros t c. rewrite <- Hcore. split.
      * intros (l & Hin). apply in_map_iff in Hin.
        destruct Hin as ([w n] & [= <- <- _] & Hin). exact Hin.
      * intros Hin. exists (length (re_split (lower review))).
        apply in_map_iff. now exists (t, c).
Qed.

(** C6.  The filter of each program returns the (document, score) pairs of
    exactly the entries whose term is the query, in the order of the result
    set and once per entry; when no entry has the query as its term the
    result is the empty list, no error. *)
Theorem filter_term_tfidf_exact (tfidf_results : list (string * string * R))
        (q : string) :
  TP1.filter_term_tfidf tfidf_results q
  = map (fun e => (fst (fst e), snd e))
        (filter (fun e => String.eqb (snd (fst e)) q) tfidf_results) /\
  MapReduce.select_word tfidf_results q
  = TP1.filter_term_tfidf tfidf_results q /\
  (forall d s, In (d, s) (TP1.filter_term_tfidf tfidf_results q) <->
               In (d, q, s) tfidf_results) /\
  ((forall e, In e tfidf_results -> snd (fst e) <> q) <->
   TP1.filter_term_tfidf tfidf_results q = []).
Proof.
  assert (Heq : TP1.filter_term_tfidf tfidf_results q
                = map (fun e => (fst (fst e), snd e))
                      (filter (fun e => String.eqb (snd (fst e)) q)
                              tfidf_results)).
  { induction tfidf_results as [| [[d t] s] rs IH]; simpl; [reflexivity |].
    destruct (String.eqb t q); simpl; now rewrite IH. }
  split; [exact Heq | split; [| split]].
  - clear Heq.
    induction tfidf_results as [| [[d t] s] rs IH]; simpl; [reflexivity |].
    destruct (String.eqb t q); simpl; now rewrite IH.
  - intros d s. rewrite Heq, in_map_iff. split.
    + intros ([[d' t'] s'] & [= <- <-] & Hin). apply filter_In in Hin.
      destruct Hin as [Hin Ht]. simpl in Ht.
      apply String.eqb_eq in Ht. now subst.
    + intros Hin. exists (d, q, s). split; [reflexivity |].
      apply filter_In. split; [exact Hin | apply String.eqb_refl].
  - rewrite Heq. clear Heq. split.
    + intros Hno.
      induction tfidf_results as [| e rs IH]; simpl; [reflexivity |].
      destruct (String.eqb_spec (snd (fst e)) q) as [E | _].
      * exfalso. apply (Hno e); [now left | exact E].
      * apply IH. intros e' Hin. apply Hno. now right.
    + intros Hnil e Hin E.
      apply map_eq_nil in Hnil.
      assert (Hin' : In e (filter (fun e => String.eqb (snd (fst e)) q)
                                  tfidf_results)).
      { apply filter_In. split; [exact Hin | now apply String.eqb_eq]. }
      rewrite Hnil in Hin'. exact Hin'.
Qed.

(** C7.  When the document frequency of a term equals the total number of
    documents, the inverse document frequency computed for it is zero, and
    so is every score written for it, whatever the raw counts: in the
    reducer, which then writes one zero entry per record of the group, and
    in [calculate_idf] and [calculate_tfidf] over the results of the
    mapper.  The zero is exact in binary64 too: the quotient of the total
    by itself is the float [1.0], whose logarithm the C library returns as
    [0.0], and the float of any ratio of positive counts times [0.0] is
    [0.0]. *)
Theorem idf_zero_when_term_in_every_document :
  (forall n, 0 < n -> log_ratio (Z.of_nat n) n = Ok 0%R) /\
  (forall n tf word_count q,
      0 < n -> 0 < tf -> 0 < word_count ->
      Binary64.truediv (Z.of_nat tf) (Z.of_nat word_count) = Ok q ->
      Binary64.truediv (Z.of_nat n) (Z.of_nat n) = Ok Binary64.one /\
      Binary64.mul q Binary64.zero = Binary64.zero) /\
  (forall word documents ctx,
      documents <> [] -> lengths_nonzero documents ->
      MapReduce.reduce_tf_idf word documents (Z.of_nat (length documents)) ctx
      = (ctx ++ map (fun v => (fst (fst v), (word, 0%R))) documents, None)) /\
  (forall reviews word total_docs,
      (0 < total_docs)%Z ->
      total_docs
      = Z.of_nat (doc_frequency (TP1.map_tf_on_reviews reviews) word) ->
      exists idf_values tfidf_results,
        TP1.calculate_idf
          (TP1.map_idf_from_tf (TP1.map_tf_on_reviews reviews)) total_docs
        = Ok idf_values /\
        dict_get idf_values word = Some 0%R /\
        TP1.tfidf_of_reviews reviews total_docs = Ok tfidf_results /\
        (forall id s, In (id, word, s) tfidf_results -> s = 0%R) /\
        (forall id c l,
            In ((word, id), (c, l)) (TP1.map_tf_on_reviews reviews) ->
            In (id, word, 0%R) tfidf_results)).
Proof.
  split; [| split; [| split]].
  - intros n Hn. rewrite log_ratio_ok by lia. now rewrite ln_ratio_self.
  - intros n tf word_count q Hn Htf Hwc Hq. split.
    + apply binary64_truediv_self. lia.
    + apply (binary64_mul_zero (a := Z.of_nat tf) (b := Z.of_nat word_count));
        [lia | lia | exact Hq].
  - intros word documents ctx. apply reduce_tf_idf_full_group.
  - intros reviews word total_docs Ht Hdf.
    set (tf_results := TP1.map_tf_on_reviews reviews) in *.
    assert (Hpos : 0 < doc_frequency tf_results word) by lia.
    destruct (calculate_idf_of_results tf_results Ht) as (idf_values & Hidf & Hget).
    assert (Hzero : ln_ratio total_docs (doc_frequency tf_results word) = 0%R)
      by (rewrite Hdf; now apply ln_ratio_self).
    exists idf_values. eexists. split; [exact Hidf | split; [| split; [| split]]].
    + rewrite (Hget word Hpos). now rewrite Hzero.
    + now apply tfidf_of_reviews_ok.
    + intros id s Hin. apply in_map_iff in Hin.
      destruct Hin as ([[w i] [tf wc]] & [= <- <- <-] & _). simpl.
      fold tf_results. rewrite Hzero. apply tfidf_score_zero.
    + intros id c l Hin. apply in_map_iff.
      exists ((word, id), (c, l)). split; [| exact Hin].
      unfold tfidf_triple. simpl. fold tf_results.
      now rewrite Hzero, tfidf_score_zero.
Qed.

(** The theorem at a group of two records and a total of two. *)
Lemma idf_zero_witness :
  MapReduce.reduce_tf_idf "the" [("doc1", 1, 3); ("doc2", 4, 5)] 2 []
  = ([("doc1", ("the", 0%R)); ("doc2", ("the", 0%R))], None).
Proof.
  apply (proj1 (proj2 (proj2 idf_zero_when_term_in_every_document))
               "the" [("doc1", 1, 3); ("doc2", 4, 5)] []).
  - discriminate.
  - intros v [<- | [<- | []]]; discriminate.
Defined.

(** C8.  For one total number of documents, a smaller document frequency
    gives a strictly larger inverse document frequency.  Whenever the two
    logarithms are computed the first exceeds the second; they are computed
    as soon as the total is positive, and they are then the values
    [calculate_idf] stores for two words with these frequencies and the
    values the reducer uses for two groups of these sizes. *)
Theorem idf_strictly_decreasing_in_doc_frequency
        (total_docs : Z) (df1 df2 : nat) :
  0 < df1 < df2 ->
  (forall i1 i2,
      log_ratio total_docs df1 = Ok i1 -> log_ratio total_docs df2 = Ok i2 ->
      (i1 > i2)%R) /\
  ((0 < total_docs)%Z ->
   exists i1 i2,
     log_ratio total_docs df1 = Ok i1 /\
     log_ratio total_docs df2 = Ok i2 /\
     (i1 > i2)%R /\
     (forall tf_results t1 t2,
         doc_frequency tf_results t1 = df1 ->
         doc_frequency tf_results t2 = df2 ->
         exists idf_values,
           TP1.calculate_idf (TP1.map_idf_from_tf tf_results) total_docs
           = Ok idf_values /\
           dict_get idf_values t1 = Some i1 /\
           dict_get idf_values t2 = Some i2) /\
     (forall w1 w2 documents1 documents2 ctx,
         length documents1 = df1 -> length documents2 = df2 ->
         lengths_nonzero documents1 -> lengths_nonzero documents2 ->
         MapReduce.reduce_tf_idf w1 documents1 total_docs ctx
         = (ctx ++ map (tfidf_entry w1 i1) documents1, None) /\
         MapReduce.reduce_tf_idf w2 documents2 total_docs ctx
         = (ctx ++ map (tfidf_entry w2 i2) documents2, None))).
Proof.
  intros Hdf. split.
  - intros i1 i2 H1 H2.
    destruct (log_ratio_cases total_docs (n := df1)) as [[Ht E1] | [_ E1]];
      [lia | | rewrite E1 in H1; discriminate].
    rewrite E1 in H1. injection H1 as <-.
    rewrite log_ratio_ok in H2 by lia. injection H2 as <-.
    now apply ln_ratio_decreasing.
  - intros Ht.
    exists (ln_ratio total_docs df1), (ln_ratio total_docs df2).
    split; [apply log_ratio_ok; lia | split; [apply log_ratio_ok; lia |]].
    split; [now apply ln_ratio_decreasing | split].
    + intros tf_results t1 t2 E1 E2.
      destruct (calculate_idf_of_results tf_results Ht)
        as (idf_values & Hidf & Hget).
      exists idf_values. split; [exact Hidf |].
      rewrite !Hget by lia. now rewrite E1, E2.
    + intros w1 w2 documents1 documents2 ctx E1 E2 Hnz1 Hnz2.
      rewrite !reduce_tf_idf_ok; auto.
      * now rewrite E1, E2.
      * intros ->. simpl in E2. lia.
      * intros ->. simpl in E1. lia.
Qed.

(** The theorem at a total of two and the frequencies one and two. *)
Lemma idf_strictly_decreasing_witness :
  0 < 1 < 2 /\
  exists i1 i2,
    log_ratio 2 1 = Ok i1 /\ log_ratio 2 2 = Ok i2 /\ (i1 > i2)%R.
Proof.
  split; [lia |].
  destruct (proj2 (@idf_strictly_decreasing_in_doc_frequency
                     2%Z 1 2 (conj Nat.lt_0_1 (Nat.lt_succ_diag_r 1)))
                  eq_refl)
    as (i1 & i2 & H1 & H2 & H3 & _).
  exists i1, i2. auto.
Defined.

(** C9.  The result set does not depend on the order in which the
    documents are mapped nor on the order in which the groups are reduced.
    For two orderings of one corpus and one total, the pure pipeline gives
    two results that are permutations of each other (or raises the same
    exception twice); and a run of the job agrees, up to the order of the
    entries and with the same exception if any, with the reduction, in any
    order of the groups, of the shuffle of any interleaving of what the
    mappers wrote.  Run twice on one input, each pipeline is a function and
    returns the same value. *)
Theorem pipeline_independent_of_order
        (corpus corpus' : list (string * string)) (total_docs : Z) :
  Permutation corpus corpus' ->
  same_result (TP1.tfidf_of_reviews corpus total_docs)
              (TP1.tfidf_of_reviews corpus' total_docs) /\
  forall written' groups',
    Permutation (MRE.map_phase corpus') written' ->
    Permutation (MRE.shuffle written') groups' ->
    same_outcome (MRE.run_job corpus total_docs)
                 (MRE.reduce_phase groups' total_docs []).
Proof.
  intros Hp. pose proof (map_tf_on_reviews_perm Hp) as Htf. split.
  - rewrite !tfidf_of_reviews_unfold.
    apply idf_then_tfidf_perm; [| exact Htf].
    apply map_tf_on_reviews_word_count.
  - intros written' groups' Hw Hg. unfold MRE.run_job.
    apply reduce_phase_perm with (written' := written'); [| | exact Hg].
    + apply map_phase_lengths_nonzero.
    + rewrite <- Hw, !map_phase_eq. now apply Permutation_map.
Qed.

(** The theorem at the two documents of the scenario of the specification,
    in their two orders. *)
Lemma pipeline_independent_of_order_witness :
  same_result
    (TP1.tfidf_of_reviews [("doc1", "the cat sat"); ("doc2", "the dog sat")] 2)
    (TP1.tfidf_of_reviews [("doc2", "the dog sat"); ("doc1", "the cat sat")] 2).
Proof.
  apply (@pipeline_independent_of_order
           [("doc1", "the cat sat"); ("doc2", "the dog sat")]
           [("doc2", "the dog sat"); ("doc1", "the cat sat")] 2%Z).
  apply perm_swap.
Defined.

(** C10, the input that refutes it.  Two documents with the same id and
    the same text, and a total of two: the pure pipeline takes one distinct
    document for the word and scores it with the logarithm of 2/1, the job
    takes the two records of the group and scores them with the logarithm
    of 2/2; the triple of the first is not among the entries of the
    second. *)
Lemma repeated_doc_id_separates_programs :
  exists results out,
    TP1.tfidf_of_reviews [("a", "x"); ("a", "x")] 2 = Ok results /\
    MRE.run_job [("a", "x"); ("a", "x")] 2 = (out, None) /\
    exists s, In ("a", "x", s) results /\ ~ In ("a", ("x", s)) out.
Proof.
  assert (Etf : TP1.map_tf_on_reviews [("a", "x"); ("a", "x")]
                = [(("x", "a"), (1, 1)); (("x", "a"), (1, 1))])
    by reflexivity.
  assert (Edf : doc_frequency [(("x", "a"), (1, 1)); (("x", "a"), (1, 1))] "x"
                = 1) by reflexivity.
  assert (Esh : MRE.shuffle (MRE.map_phase [("a", "x"); ("a", "x")])
                = [("x", [("a", 1, 1); ("a", 1, 1)])]) by reflexivity.
  assert (Hpos : (0 < ln_ratio 2 1)%R) by (apply ln_ratio_pos; simpl; lia).
  assert (Hzero : ln_ratio 2 2 = 0%R) by (apply (ln_ratio_self (n := 2)); lia).
  eexists. eexists. split; [| split].
  - apply tfidf_of_reviews_ok. lia.
  - apply run_job_ok. lia.
  - rewrite Etf, Esh. exists (tfidf_score 1 1 (ln_ratio 2 1)). split.
    + left. unfold tfidf_triple. simpl. now rewrite Edf.
    + unfold group_entries, tfidf_entry. simpl. rewrite Hzero.
      assert (Hne : tfidf_score 1 1 (ln_ratio 2 1) <> tfidf_score 1 1 0).
      { unfold tfidf_score. simpl. lra. }
      intros [[= E] | [[= E] | []]]; now apply Hne.
Qed.

(** C10, as the code has it.  For a corpus whose document ids are pairwise
    distinct and a total of at least one document, the pure pipeline and a
    run of the job both succeed and produce the same entries: the triples
    of the first are a permutation of the entries of the second, so the two
    sets of (document, term, score) are equal. *)
Theorem pure_pipeline_agrees_with_job
        (corpus : list (string * string)) (total_docs : Z) :
  NoDup (map fst corpus) -> (1 <= total_docs)%Z ->
  exists results out,
    TP1.tfidf_of_reviews corpus total_docs = Ok results /\
    MRE.run_job corpus total_docs = (out, None) /\
    Permutation results (map as_triple out) /\
    forall d t s, In (d, t, s) results <-> In (d, (t, s)) out.
Proof.
  intros Hnd Ht.
  pose proof (map_tf_on_reviews_NoDup _ Hnd) as Hpairs.
  eexists. eexists. split; [| split].
  - apply tfidf_of_reviews_ok. lia.
  - apply run_job_ok. lia.
  - assert (Hperm :
             Permutation
               (map (tfidf_triple
                       (fun w => ln_ratio total_docs
                                   (doc_frequency (TP1.map_tf_on_reviews corpus) w)))
                    (TP1.map_tf_on_reviews corpus))
               (map as_triple
                    (flat_map (group_entries total_docs)
                              (MRE.shuffle (MRE.map_phase corpus))))).
    { rewrite shuffle_entries, map_phase_eq, !map_map.
      rewrite (map_ext _ _ (fun r => as_triple_written_entry _ total_docs r Hpairs)).
      reflexivity. }
    split; [exact Hperm |].
    intros d t s. rewrite <- In_as_triple. split; intros Hin.
    + now apply (Permutation_in _ Hperm).
    + now apply (Permutation_in _ (Permutation_sym Hperm)).
Qed.

(** The theorem at the two documents of the scenario of the specification. *)
Lemma pure_pipeline_agrees_with_job_witness :
  exists results out,
    TP1.tfidf_of_reviews [("doc1", "the cat sat"); ("doc2", "the dog sat")] 2
    = Ok results /\
    MRE.run_job [("doc1", "the cat sat"); ("doc2", "the dog sat")] 2
    = (out, None) /\
    Permutation results (map as_triple out).
Proof.
  assert (Hnd : NoDup (map fst [("doc1", "the cat sat");
                                ("doc2", "the dog sat")])).
  { repeat constructor; simpl; intuition discriminate. }
  assert (Ht : (1 <= 2)%Z) by discriminate.
  destruct (@pure_pipeline_agrees_with_job
              [("doc1", "the cat sat"); ("doc2", "the dog sat")] 2%Z Hnd Ht)
    as (results & out & H1 & H2 & H3 & _).
  exists results, out. auto.
Defined.

(** * Further properties of the programs *)

(** ** Reading and printing, on values *)

(** The model of [read_documents], [endswith] and the file filter against
    Python: a file [10_7.txt] holding an id, a tab, a text and a newline
    gives the text without the newline; a file that is not [.txt] is
    skipped; a content whose only tab is its first or its last character
    loses it to [strip] and raises; a line without a tab is not printed. *)
Example read_documents_values :
  read_documents
    [("10_7.txt", ("10_7" ++ String tab "If you like it. " ++ String "010" "")%string);
     ("notes.md", "no tab here");
     ("a.b.txt", String " " ("x" ++ String tab "y" ++ String tab "z")%string)]
  = Read [("10_7", "If you like it."); ("a", "y")] /\
  read_documents [("a.txt", String tab "foo")] = RaiseIndexError /\
  read_documents [("a.txt", ("id" ++ String tab "")%string)] = RaiseIndexError /\
  map (endswith ".txt") ["a.txt"; ".txt"; "txt"; "a.TXT"; "a.txt.bak"]
  = [true; true; false; false; false] /\
  filter_results_by_word
    [("d1" ++ String tab "after" ++ String tab "0.5" ++ String "010" "")%string;
     ("d2" ++ String tab "before" ++ String tab "0.1" ++ String "010" "")%string;
     "after"; ""]
    "after"
  = [("d1" ++ String tab "after" ++ String tab "0.5")%string].
Proof. repeat split; reflexivity. Qed.

(** ** The tokenizer *)

Lemma is_separator_lower_char (c : ascii) :
  is_separator (lower_char c) = is_separator c.
Proof. destruct c as [[] [] [] [] [] [] [] []]; reflexivity. Qed.

Lemma lower_char_idempotent (c : ascii) :
  lower_char (lower_char c) = lower_char c.
Proof. destruct c as [[] [] [] [] [] [] [] []]; reflexivity. Qed.

Lemma count_separators_lower (s : string) :
  count_separators (lower s) = count_separators s.
Proof.
  unfold count_separators.
  induction s as [| c s IH]; simpl; [reflexivity |].
  now rewrite is_separator_lower_char, IH.
Qed.

Lemma lower_idempotent (s : string) : lower (lower s) = lower s.
Proof.
  induction s as [| c s IH]; simpl; [reflexivity |].
  now rewrite lower_char_idempotent, IH.
Qed.

Lemma re_split_cons (s : string) : exists w ws, re_split s = w :: ws.
Proof.
  induction s as [| c s (w & ws & IH)]; simpl.
  - now exists EmptyString, [].
  - destruct (is_separator c).
    + rewrite IH. now exists EmptyString, (w :: ws).
    + rewrite IH. now exists (String c w), ws.
Qed.

Lemma re_split_length (s : string) :
  length (re_split s) = S (count_separators s).
Proof.
  unfold count_separators.
  induction s as [| c s IH]; simpl; [reflexivity |].
  destruct (is_separator c); simpl.
  - now rewrite IH.
  - destruct (re_split_cons s) as (w & ws & E). rewrite E in *. simpl in *.
    exact IH.
Qed.

Lemma re_split_pieces (s : string) :
  glue (re_split s) = remove_separators s /\
  Forall (fun w => count_separators w = 0) (re_split s) /\
  Forall (fun w => lower s = s -> lower w = w) (re_split s).
Proof.
  unfold count_separators.
  induction s as [| c s (IHg & IHs & IHl)]; simpl.
  - repeat split; repeat constructor.
  - destruct (is_separator c) eqn:Ec.
    + split; [exact IHg | split].
      * constructor; [reflexivity | exact IHs].
      * constructor; [reflexivity |].
        apply Forall_impl with (2 := IHl). intros w Hw [= _ E]. auto.
    + destruct (re_split_cons s) as (w & ws & E). rewrite E in *.
      simpl in *. split; [now rewrite <- IHg | split].
      * inversion IHs as [| ? ? Hw Hws]; subst.
        constructor; [simpl; now rewrite Ec | exact Hws].
      * inversion IHl as [| ? ? Hw Hws]; subst.
        constructor.
        -- intros [= E1 E2]. simpl. now rewrite E1, (Hw E2).
        -- apply Forall_impl with (2 := Hws). intros w' Hw' [= _ E2]. auto.
Qed.

Lemma length_is_pieces_and_separators (s : string) :
  String.length s
  = list_sum (map String.length (re_split s)) + count_separators s.
Proof.
  unfold count_separators.
  induction s as [| c s IH]; simpl; [reflexivity |].
  destruct (is_separator c); simpl.
  - rewrite IH. lia.
  - destruct (re_split_cons s) as (w & ws & E). rewrite E in *.
    simpl in *. lia.
Qed.

(** X1.  The document length both mappers emit is one more than the number
    of separator characters of the review, whatever the letters, so it is
    never zero. *)
Theorem map_tf_word_count_is_separators_plus_one (id review : string) :
  Forall (fun r => snd (snd r) = S (count_separators review))
         (TP1.map_tf id review) /\
  forall ctx, exists written,
    MapReduce.map_tf id review ctx = ctx ++ written /\
    Forall (fun p => snd (snd p) = S (count_separators review)) written.
Proof.
  assert (E : length (re_split (lower review)) = S (count_separators review))
    by now rewrite re_split_length, count_separators_lower.
  split.
  - rewrite TP1_map_tf_eq. apply Forall_forall. intros r Hr.
    apply in_map_iff in Hr. destruct Hr as (p & <- & _). exact E.
  - intros ctx. eexists. split; [apply MapReduce_map_tf_eq |].
    apply Forall_forall. intros r Hr.
    apply in_map_iff in Hr. destruct Hr as (p & <- & _). exact E.
Qed.

(** X2.  The split loses nothing but the separators: its pieces put end to
    end are the text without its separator characters, no piece contains a
    separator, and the length of the text is the total length of the pieces
    plus the number of separators. *)
Theorem re_split_keeps_all_but_separators (s : string) :
  glue (re_split s) = remove_separators s /\
  Forall (fun w => count_separators w = 0) (re_split s) /\
  String.length s
  = list_sum (map String.length (re_split s)) + count_separators s.
Proof.
  destruct (re_split_pieces s) as (H1 & H2 & _).
  split; [exact H1 | split; [exact H2 |]].
  apply length_is_pieces_and_separators.
Qed.

Lemma tokens_normal (review : string) :
  Forall (fun t => t <> EmptyString /\ count_separators t = 0 /\ lower t = t)
         (tokens review).
Proof.
  unfold tokens. apply Forall_forall. intros t Ht.
  apply filter_In in Ht. destruct Ht as [Hin Htruthy].
  destruct (re_split_pieces (lower review)) as (_ & Hsep & Hlow).
  rewrite Forall_forall in Hsep, Hlow.
  split; [| split].
  - intros ->. discriminate.
  - now apply Hsep.
  - apply (Hlow t Hin). apply lower_idempotent.
Qed.

(** X3.  Every token of a review is non-empty, contains no separator
    character and is in lower case. *)
Theorem tokens_are_normalised (review : string) :
  Forall (fun t => t <> EmptyString /\ count_separators t = 0 /\ lower t = t)
         (tokens review).
Proof. apply tokens_normal. Qed.

(** ** The counts of a document *)

Lemma tf_incr_sum (word : string) (TF : dict nat) :
  list_sum (map snd (tf_incr word TF)) = S (list_sum (map snd TF)).
Proof.
  induction TF as [| [k n] TF IH]; simpl; [reflexivity |].
  destruct (String.eqb k word); simpl; [reflexivity | rewrite IH; lia].
Qed.

Lemma count_loop_sum (words : list string) :
  forall TF0,
    list_sum (map snd (fold_left count_step words TF0))
    = list_sum (map snd TF0) + length (filter truthy words).
Proof.
  induction words as [| word words IH]; intros TF0; simpl; [lia |].
  rewrite IH. unfold count_step. destruct (truthy word); simpl; [| lia].
  rewrite tf_incr_sum. lia.
Qed.

(** X4.  The raw counts a mapper emits for a document add up to the number
    of its tokens; together with the empty pieces of the split they add up
    to the document length carried by every record, which they can
    therefore never exceed. *)
Theorem map_tf_counts_add_up (id review : string) :
  total_count (TP1.map_tf id review) = length (tokens review) /\
  total_count (TP1.map_tf id review)
  + count_occ string_dec (re_split (lower review)) EmptyString
  = S (count_separators review) /\
  Forall (fun r => fst (snd r) <= total_count (TP1.map_tf id review)
                   /\ total_count (TP1.map_tf id review) <= snd (snd r))
         (TP1.map_tf id review).
Proof.
  assert (Hsum : total_count (TP1.map_tf id review) = length (tokens review)).
  { unfold total_count, tokens. rewrite TP1_map_tf_eq, map_map. simpl.
    rewrite (map_ext _ snd) by reflexivity.
    unfold count_words.
    now rewrite (count_loop_sum (re_split (lower review)) []). }
  assert (Hlen : length (re_split (lower review)) = S (count_separators review))
    by now rewrite re_split_length, count_separators_lower.
  pose proof (pieces_split_by_truth (re_split (lower review))) as Hsplit.
  fold (tokens review) in Hsplit.
  split; [exact Hsum | split; [lia |]].
  apply Forall_forall. intros r Hr. split.
  - unfold total_count. clear Hsum.
    induction (TP1.map_tf id review) as [| r' l IH]; [contradiction |].
    simpl. destruct Hr as [-> | Hr]; [lia |].
    specialize (IH Hr). lia.
  - rewrite (TP1_map_tf_word_count _ _ _ Hr). lia.
Qed.

(** ** The pure pipeline as a whole *)




(** [process_reviews] in closed form, for every list of reviews. *)
Lemma process_reviews_closed_form (reviews : list (string * string))
      (search_term : string) :
  TP1.process_reviews reviews search_term
  = Ok (TP1.filter_term_tfidf
          (map (tfidf_triple
                  (fun w => ln_ratio (Z.of_nat (length reviews))
                              (doc_frequency (TP1.map_tf_on_reviews reviews) w)))
               (TP1.map_tf_on_reviews reviews))
          search_term).
Proof.
  unfold TP1.process_reviews.
  destruct reviews as [| r reviews]; [reflexivity |].
  rewrite tfidf_of_reviews_ok by (simpl length; lia). reflexivity.
Qed.


Lemma filter_term_tfidf_ids (idf : string -> R) (q : string)
      (l : list TP1.tf_result) :
  map fst (TP1.filter_term_tfidf (map (tfidf_triple idf) l) q)
  = map (fun r => snd (fst r)) (results_of_word l q).
Proof.
  unfold results_of_word.
  induction l as [| [[w i] [tf wc]] l IH]; simpl; [reflexivity |].
  destruct (String.eqb w q); simpl; now rewrite IH.
Qed.

Lemma results_of_word_flat_map {A : Type} (f : A -> list TP1.tf_result)
      (l : list A) (q : string) :
  results_of_word (flat_map f l) q
  = flat_map (fun a => results_of_word (f a) q) l.
Proof.
  unfold results_of_word.
  induction l as [| a l IH]; cbn [flat_map]; [reflexivity |].
  rewrite filter_app. f_equal. exact IH.
Qed.

Lemma filter_key_NoDup {V : Type} (d : dict V) (q : string) :
  NoDup (keys d) ->
  length (filter (fun p => String.eqb (fst p) q) d)
  = if existsb (String.eqb q) (keys d) then 1 else 0.
Proof.
  induction d as [| [k v] d IH]; simpl; intros Hnd; [reflexivity |].
  inversion Hnd as [| ? ? Hnotin Hnd']; subst.
  rewrite (String.eqb_sym q k).
  destruct (String.eqb_spec k q) as [-> | Hk]; simpl.
  - rewrite IH by assumption.
    destruct (existsb (String.eqb q) (keys d)) eqn:E; [| reflexivity].
    exfalso. apply existsb_exists in E. destruct E as (x & Hx & Ex).
    apply String.eqb_eq in Ex. subst. contradiction.
  - now apply IH.
Qed.

Lemma mentions_keys (text q : string) :
  existsb (String.eqb q) (keys (count_words (re_split (lower text))))
  = mentions q text.
Proof.
  unfold mentions.
  assert (Hiff : In q (keys (count_words (re_split (lower text))))
                 <-> In q (tokens text)).
  { unfold keys. rewrite in_map_iff. split.
    - intros ([w c] & <- & Hin). apply count_words_In in Hin.
      destruct Hin as [-> Hc]. simpl. unfold tokens.
      apply (count_occ_In string_dec). lia.
    - intros Hin. unfold tokens in Hin.
      apply (count_occ_In string_dec) in Hin.
      exists (q, count_occ string_dec
                   (filter truthy (re_split (lower text))) q).
      split; [reflexivity |]. apply count_words_In. split; [reflexivity | lia]. }
  destruct (existsb (String.eqb q) (tokens text)) eqn:E2.
  - apply existsb_exists in E2. destruct E2 as (x & Hx & Ex).
    apply String.eqb_eq in Ex. subst x.
    apply existsb_exists. exists q. split; [now apply Hiff | apply String.eqb_refl].
  - destruct (existsb (String.eqb q) (keys _)) eqn:E1; [| reflexivity].
    apply existsb_exists in E1. destruct E1 as (x & Hx & Ex).
    apply String.eqb_eq in Ex. subst x. apply Hiff in Hx.
    assert (H : existsb (String.eqb q) (tokens text) = true)
      by (apply existsb_exists; exists q; split;
          [exact Hx | apply String.eqb_refl]).
    congruence.
Qed.

Lemma map_tf_ids_of_word (id text q : string) :
  map (fun r => snd (fst r)) (results_of_word (TP1.map_tf id text) q)
  = if mentions q text then [id] else [].
Proof.
  rewrite TP1_map_tf_eq. unfold results_of_word.
  set (TF := count_words (re_split (lower text))).
  set (n := length (re_split (lower text))).
  assert (E : map (fun r : TP1.tf_result => snd (fst r))
                  (filter (fun r : TP1.tf_result => String.eqb (fst (fst r)) q)
                          (map (fun p : string * nat => ((fst p, id), (snd p, n))) TF))
              = repeat id (length (filter (fun p => String.eqb (fst p) q) TF))).
  { induction TF as [| [w c] TF IH]; simpl; [reflexivity |].
    destruct (String.eqb w q); simpl; now rewrite IH. }
  etransitivity; [exact E |].
  rewrite filter_key_NoDup by apply count_words_NoDup.
  unfold TF. rewrite mentions_keys.
  now destruct (mentions q text).
Qed.

Lemma ids_of_word_flat_map (reviews : list (string * string)) (q : string) :
  map (fun r : TP1.tf_result => snd (fst r))
      (flat_map (fun a => results_of_word (TP1.map_tf (fst a) (snd a)) q)
                reviews)
  = map fst (filter (fun p => mentions q (snd p)) reviews).
Proof.
  induction reviews as [| [id text] reviews IH];
    cbn [flat_map filter map fst snd]; [reflexivity |].
  rewrite map_app, map_tf_ids_of_word.
  destruct (mentions q text); cbn [app map fst]; [f_equal |]; exact IH.
Qed.

(** The documents [process_reviews] returns for a term. *)
Lemma process_reviews_ids (reviews : list (string * string)) (q : string) :
  exists out,
    TP1.process_reviews reviews q = Ok out /\
    map fst out = map fst (filter (fun p => mentions q (snd p)) reviews).
Proof.
  eexists. split; [apply process_reviews_closed_form |].
  rewrite filter_term_tfidf_ids, map_tf_on_reviews_eq, results_of_word_flat_map.
  apply ids_of_word_flat_map.
Qed.





(** X6.  [process_reviews] returns one score for each review that has the
    search term among its tokens, in the order of the reviews, and nothing
    for the other reviews. *)
Theorem process_reviews_returns_the_reviews_with_the_term
        (reviews : list (string * string)) (search_term : string) :
  exists out,
    TP1.process_reviews reviews search_term = Ok out /\
    map fst out
    = map fst (filter (fun p => mentions search_term (snd p)) reviews).
Proof. apply process_reviews_ids. Qed.

Lemma mentions_normal (term text : string) :
  mentions term text = true ->
  term <> EmptyString /\ count_separators term = 0 /\ lower term = term.
Proof.
  unfold mentions. intros H. apply existsb_exists in H.
  destruct H as (t & Hin & E). apply String.eqb_eq in E. subst t.
  pose proof (tokens_normal text) as Hall. rewrite Forall_forall in Hall.
  exact (Hall term Hin).
Qed.

(** X7.  The search term is compared as it is given: a term that is empty,
    contains a separator character or has a capital letter equals no token,
    and [process_reviews] returns the empty list for it, whatever the
    reviews. *)
Theorem process_reviews_finds_only_normalised_terms
        (reviews : list (string * string)) (search_term : string) :
  search_term = EmptyString \/ count_separators search_term <> 0
  \/ lower search_term <> search_term ->
  TP1.process_reviews reviews search_term = Ok [].
Proof.
  intros Hbad.
  destruct (process_reviews_ids reviews search_term) as (out & Hout & Hids).
  rewrite Hout. f_equal.
  apply map_eq_nil with (f := fst). rewrite Hids.
  assert (Hnone : forall l : list (string * string),
             filter (fun p => mentions search_term (snd p)) l = []).
  { induction l as [| [id text] l IH]; [reflexivity |].
    cbn [filter snd].
    destruct (mentions search_term text) eqn:E; [| exact IH].
    apply mentions_normal in E. destruct E as (H1 & H2 & H3).
    destruct Hbad as [Hb | [Hb | Hb]]; contradiction. }
  now rewrite Hnone.
Qed.

Lemma process_reviews_finds_only_normalised_terms_witness :
  TP1.process_reviews [("d1", "After all"); ("d2", "after")] "After" = Ok [].
Proof.
  apply process_reviews_finds_only_normalised_terms.
  right. right. vm_compute. discriminate.
Defined.

(** ** The two mappers *)

(** X8.  The two mappers emit the same records in the same order: what
    [map_tf] of the job writes to its context is, pair for pair, what
    [map_tf] of TP1.py returns, the word as the key. *)
Theorem mappers_emit_the_same_records
        (id review : string) (ctx : MapReduce.context MapReduce.tf_value) :
  MapReduce.map_tf id review ctx
  = ctx ++ map as_written (TP1.map_tf id review).
Proof.
  rewrite MapReduce_map_tf_eq, TP1_map_tf_eq, map_map. reflexivity.
Qed.

(** X9.  The mappers do not see the case of the letters: two reviews with
    the same lower-case form, such as a review and its lower-case form,
    give the same records. *)
Theorem map_tf_ignores_case (id a b : string) :
  lower a = lower b ->
  TP1.map_tf id (lower a) = TP1.map_tf id b /\
  forall ctx, MapReduce.map_tf id (lower a) ctx = MapReduce.map_tf id b ctx.
Proof.
  intros E. split; [| intros ctx].
  - now rewrite !TP1_map_tf_eq, lower_idempotent, E.
  - now rewrite !MapReduce_map_tf_eq, lower_idempotent, E.
Qed.

Lemma map_tf_ignores_case_witness :
  TP1.map_tf "d" (lower "The CAT sat") = TP1.map_tf "d" "the Cat SAT" /\
  forall ctx,
    MapReduce.map_tf "d" (lower "The CAT sat") ctx
    = MapReduce.map_tf "d" "the Cat SAT" ctx.
Proof. apply map_tf_ignores_case. reflexivity. Defined.

(** ** The stages of the pure pipeline *)

(** X10.  What [map_idf_from_tf] builds: a dictionary with one entry for
    each word that has a mapper result, holding the duplicate-free set of
    the documents that have a result for the word. *)
Theorem map_idf_from_tf_collects_documents (tf_results : list TP1.tf_result) :
  let idf_input := TP1.map_idf_from_tf tf_results in
  NoDup (keys idf_input) /\
  forall word,
    (In word (keys idf_input) <-> exists id c, In ((word, id), c) tf_results) /\
    NoDup (ids_or_empty idf_input word) /\
    forall id, In id (ids_or_empty idf_input word)
               <-> exists c, In ((word, id), c) tf_results.
Proof.
  destruct (map_idf_from_tf_spec tf_results) as [Hnd Hall].
  cbv zeta. split; [exact Hnd |].
  intros word. specialize (Hall word). unfold ids_or_empty.
  destruct (dict_get (TP1.map_idf_from_tf tf_results) word) as [ids |] eqn:E.
  - destruct Hall as (Hids & Hne & Hmem). split; [| split; assumption].
    split.
    + intros _. destruct ids as [| id ids]; [contradiction |].
      exists id. apply Hmem. now left.
    + intros _. apply dict_get_In in E.
      apply in_map_iff. exists (word, ids). split; [reflexivity | exact E].
  - split; [| split].
    + split.
      * intros Hin. apply dict_get_None in E. contradiction.
      * intros (id & c & Hin). exfalso. exact (Hall id c Hin).
    + constructor.
    + intros id. split; [contradiction |].
      intros (c & Hin). exact (Hall id c Hin).
Qed.



(** X12.  [calculate_tfidf] skips without notice every mapper result
    whose term has no entry in [idf_values], dividing only for the others:
    it returns the scores of the results it knows the term of, in their
    order, unless one of these has a document length of zero, and then it
    raises [ZeroDivisionError]. *)
Theorem calculate_tfidf_skips_unknown_terms
        (tf_results : list TP1.tf_result) (idf_values : dict R) :
  match TP1.calculate_tfidf tf_results idf_values with
  | Ok out =>
      Forall (fun r => has_idf idf_values r = true -> snd (snd r) <> 0)
             tf_results /\
      out = map (tfidf_triple (idf_or_zero idf_values))
                (filter (has_idf idf_values) tf_results)
  | Raise e =>
      e = ZeroDivisionError /\
      Exists (fun r => has_idf idf_values r = true /\ snd (snd r) = 0)
             tf_results
  end.
Proof.
  induction tf_results as [| [[term id] [tf wc]] rest IH].
  - simpl. split; [constructor | reflexivity].
  - cbn [TP1.calculate_tfidf filter].
    assert (Hhas : has_idf idf_values (term, id, (tf, wc))
                   = match dict_get idf_values term with
                     | Some _ => true
                     | None => false
                     end) by reflexivity.
    assert (Hidf : idf_or_zero idf_values term
                   = match dict_get idf_values term with
                     | Some idf => idf
                     | None => 0%R
                     end) by reflexivity.
    rewrite Hhas.
    destruct (dict_get idf_values term) as [idf |].
    + unfold truediv.
      destruct (Z.eqb_spec (Z.of_nat wc) 0) as [Hz | Hnz]; simpl.
      * split; [reflexivity |]. apply Exists_cons_hd.
        split; [exact Hhas | simpl; lia].
      * destruct (TP1.calculate_tfidf rest idf_values) as [out |]; simpl.
        -- destruct IH as [Hall ->]. split.
           ++ constructor; [simpl; lia | exact Hall].
           ++ cbn [map]. f_equal. unfold tfidf_triple, tfidf_score.
              cbn [fst snd]. now rewrite Hidf.
        -- destruct IH as [-> Hex]. split; [reflexivity |].
           now apply Exists_cons_tl.
    + destruct (TP1.calculate_tfidf rest idf_values) as [out |].
      * destruct IH as [Hall ->]. split; [| reflexivity].
        constructor; [| exact Hall].
        rewrite Hhas. discriminate.
      * destruct IH as [-> Hex]. split; [reflexivity |].
        now apply Exists_cons_tl.
Qed.


(** ** The reducer *)





(** ** Reading the documents and the output file *)

Lemma str_split_cons (sep : ascii) (s : string) :
  exists w ws, str_split sep s = w :: ws.
Proof.
  induction s as [| c s (w & ws & IH)]; simpl.
  - now exists EmptyString, [].
  - destruct (Ascii.eqb c sep).
    + rewrite IH. now exists EmptyString, (w :: ws).
    + rewrite IH. now exists (String c w), ws.
Qed.

Lemma str_split_length (sep : ascii) (s : string) :
  length (str_split sep s) = S (count_char sep s).
Proof.
  unfold count_char.
  induction s as [| c s IH]; simpl; [reflexivity |].
  destruct (Ascii.eqb c sep); simpl.
  - now rewrite IH.
  - destruct (str_split_cons sep s) as (w & ws & E). rewrite E in *.
    simpl in *. exact IH.
Qed.

Lemma str_split_pieces (sep : ascii) (s : string) :
  Forall (fun w => count_char sep w = 0) (str_split sep s).
Proof.
  unfold count_char.
  induction s as [| c s IH]; simpl.
  - repeat constructor.
  - destruct (Ascii.eqb c sep) eqn:Ec.
    + constructor; [reflexivity | exact IH].
    + destruct (str_split_cons sep s) as (w & ws & E). rewrite E in *.
      inversion IH as [| ? ? Hw Hws]; subst.
      constructor; [simpl; now rewrite Ec | exact Hws].
Qed.

Lemma str_split_join (sep : ascii) (s : string) :
  join sep (str_split sep s) = s.
Proof.
  induction s as [| c s IH]; [reflexivity |].
  cbn [str_split].
  destruct (str_split_cons sep s) as (w & ws & E). rewrite E in *.
  destruct (Ascii.eqb_spec c sep) as [-> | Hc].
  - cbn [join String.append]. cbn [join] in IH. now rewrite IH.
  - cbn [join]. cbn [join] in IH.
    destruct ws as [| w' ws]; [now rewrite IH |].
    cbn [String.append]. now rewrite IH.
Qed.

Lemma str_split_no_sep (sep : ascii) (w : string) :
  count_char sep w = 0 -> str_split sep w = [w].
Proof.
  unfold count_char.
  induction w as [| c w IH]; simpl; [reflexivity |].
  destruct (Ascii.eqb c sep); [discriminate |].
  intros H. now rewrite IH.
Qed.

Lemma str_split_app (sep : ascii) (w r : string) :
  count_char sep w = 0 ->
  str_split sep (w ++ String sep r)%string = w :: str_split sep r.
Proof.
  unfold count_char.
  induction w as [| c w IH]; simpl.
  - intros _. now rewrite Ascii.eqb_refl.
  - destruct (Ascii.eqb c sep); [discriminate |].
    intros H. now rewrite IH.
Qed.

(** X16.  Splitting at a character and joining with it gives the string
    back; the split has one piece more than the string has occurrences of
    the character, and no piece contains it. *)
Theorem str_split_round_trip (sep : ascii) (s : string) :
  join sep (str_split sep s) = s /\
  length (str_split sep s) = S (count_char sep s) /\
  Forall (fun w => count_char sep w = 0) (str_split sep s).
Proof.
  split; [apply str_split_join | split].
  - apply str_split_length.
  - apply str_split_pieces.
Qed.

Lemma review_id_of_no_dot (filename : string) :
  count_char "." (review_id_of filename) = 0.
Proof.
  unfold review_id_of.
  pose proof (str_split_pieces "." filename) as H.
  destruct (str_split "." filename) as [| w ws]; [reflexivity |].
  now inversion H.
Qed.

(** X17.  The review id of a file is the part of its name before the first
    dot: files whose names agree up to their first dot, such as [a.txt]
    and [a.b.txt], are given the same review id. *)
Theorem review_id_is_name_up_to_first_dot (id rest : string) :
  count_char "." id = 0 ->
  review_id_of (id ++ String "." rest)%string = id.
Proof.
  intros H. unfold review_id_of. now rewrite str_split_app.
Qed.

Lemma review_id_is_name_up_to_first_dot_witness :
  review_id_of ("10_7" ++ String "." "v2.txt")%string = "10_7".
Proof. apply review_id_is_name_up_to_first_dot. reflexivity. Defined.

Lemma review_text_of_cases (content : string) :
  (count_char tab (strip content) = 0 /\
   review_text_of content = RaiseIndexError) \/
  (count_char tab (strip content) <> 0 /\
   review_text_of content
   = Read (nth 1 (str_split tab (strip content)) EmptyString) /\
   count_char tab (nth 1 (str_split tab (strip content)) EmptyString) = 0).
Proof.
  unfold review_text_of.
  pose proof (str_split_length tab (strip content)) as Hlen.
  pose proof (str_split_pieces tab (strip content)) as Hall.
  destruct (str_split tab (strip content)) as [| c0 [| c1 cs]];
    simpl in Hlen.
  - discriminate.
  - left. split; [lia | reflexivity].
  - right. split; [lia | split; [reflexivity |]].
    simpl. inversion Hall as [| ? ? _ Hall']; subst.
    now inversion Hall'.
Qed.

Lemma read_documents_Read (folder : list (string * string))
      (reviews : list (string * string)) :
  read_documents folder = Read reviews ->
  reviews
  = map review_of_file (filter (fun f => endswith ".txt" (fst f)) folder).
Proof.
  revert reviews.
  induction folder as [| [filename content] folder IH]; intros reviews H.
  - simpl in H. now injection H as <-.
  - cbn [read_documents] in H. cbn [filter fst].
    destruct (endswith ".txt" filename); [| now apply IH].
    destruct (review_text_of_cases content) as [[_ E] | (_ & E & _)];
      rewrite E in H; [discriminate |].
    destruct (read_documents folder) as [rs |]; [| discriminate].
    injection H as <-. cbn [map]. f_equal. now apply IH.
Qed.

(** X18.  When [read_documents] returns, it returns one review for each
    file whose name ends in [.txt], in the order of the folder, so as many
    reviews as the job takes for its total; no review id contains a dot
    and no review text a tab. *)
Theorem read_documents_returns_one_review_per_txt_file
        (folder : list (string * string)) (reviews : list (string * string)) :
  read_documents folder = Read reviews ->
  reviews
  = map review_of_file (filter (fun f => endswith ".txt" (fst f)) folder) /\
  length reviews = count_txt_files (map fst folder) /\
  Forall (fun r => count_char "." (fst r) = 0 /\ count_char tab (snd r) = 0)
         reviews.
Proof.
  intros H. pose proof (read_documents_Read _ H) as E.
  split; [exact E | split].
  - rewrite E, length_map. unfold count_txt_files. clear.
    induction folder as [| [filename content] folder IH]; [reflexivity |].
    cbn [filter map fst].
    destruct (endswith ".txt" filename); simpl; now rewrite IH.
  - clear E. revert reviews H.
    induction folder as [| [filename content] folder IH]; intros reviews H.
    + simpl in H. injection H as <-. constructor.
    + cbn [read_documents] in H.
      destruct (endswith ".txt" filename); [| now apply IH].
      destruct (review_text_of_cases content) as [[_ E] | (_ & E & Hnotab)];
        rewrite E in H; [discriminate |].
      destruct (read_documents folder) as [rs |]; [| discriminate].
      injection H as <-. constructor; [| now apply IH].
      split; [apply review_id_of_no_dot | exact Hnotab].
Qed.

Lemma read_documents_returns_one_review_per_txt_file_witness :
  let folder :=
    [("10_7.txt", ("10_7" ++ String tab "If you like it. " ++ String "010" "")%string);
     ("notes.md", "no tab here");
     ("a.b.txt", String " " ("x" ++ String tab "y" ++ String tab "z")%string)] in
  let reviews := [("10_7", "If you like it."); ("a", "y")] in
  reviews
  = map review_of_file (filter (fun f => endswith ".txt" (fst f)) folder) /\
  length reviews = count_txt_files (map fst folder) /\
  Forall (fun r => count_char "." (fst r) = 0 /\ count_char tab (snd r) = 0)
         reviews.
Proof.
  cbv zeta.
  apply read_documents_returns_one_review_per_txt_file.
  reflexivity.
Defined.

(** X19.  [read_documents] raises [IndexError] exactly when the folder has
    a file whose name ends in [.txt] and whose content, without the white
    space at its two ends, has no tab; files with other names are never
    looked into. *)
Theorem read_documents_raises_iff (folder : list (string * string)) :
  read_documents folder = RaiseIndexError <->
  Exists (fun f => endswith ".txt" (fst f) = true /\
                   count_char tab (strip (snd f)) = 0)
         folder.
Proof.
  induction folder as [| [filename content] folder IH].
  - simpl. split; [discriminate | intros H; inversion H].
  - cbn [read_documents].
    destruct (endswith ".txt" filename) eqn:Etxt.
    + destruct (review_text_of_cases content) as [[Hz E] | (Hnz & E & _)];
        rewrite E.
      * split; [| reflexivity].
        intros _. apply Exists_cons_hd. now split.
      * destruct (read_documents folder) as [rs |].
        -- split; [discriminate |].
           intros H. apply Exists_cons in H.
           destruct H as [[_ Hz] | H]; [simpl in Hz; contradiction |].
           now apply IH in H.
        -- split; [| reflexivity].
           intros _. apply Exists_cons_tl. now apply IH.
    + rewrite IH. split.
      * intros H. now apply Exists_cons_tl.
      * intros H. apply Exists_cons in H.
        destruct H as [[Hf _] | H]; [| exact H].
        simpl in Hf. congruence.
Qed.

Lemma filter_results_by_word_eq (lines : list string) (term : string) :
  filter_results_by_word lines term
  = filter (second_column_is term) (map strip lines).
Proof.
  induction lines as [| line lines IH]; [reflexivity |].
  cbn [filter_results_by_word map filter].
  fold (second_column_is term (strip line)).
  destruct (second_column_is term (strip line)); now rewrite IH.
Qed.

Lemma second_column_is_shape (term line : string) :
  second_column_is term line = true <->
  count_char tab term = 0 /\
  exists id, count_char tab id = 0 /\
    (line = (id ++ String tab term)%string \/
     exists rest, line = (id ++ String tab (term ++ String tab rest))%string).
Proof.
  unfold second_column_is. split.
  - intros H. apply andb_prop in H. destruct H as [Hlen Hcol].
    pose proof (str_split_join tab line) as Hjoin.
    pose proof (str_split_pieces tab line) as Hall.
    destruct (str_split tab line) as [| c0 [| c1 cs]]; try discriminate.
    simpl in Hcol. apply String.eqb_eq in Hcol. subst c1.
    apply Forall_cons_iff in Hall. destruct Hall as [H0 Hall].
    apply Forall_cons_iff in Hall. destruct Hall as [H1 _].
    split; [exact H1 |]. exists c0. split; [exact H0 |].
    cbn [join] in Hjoin. destruct cs as [| c2 cs].
    + left. now symmetry.
    + right. exists (join tab (c2 :: cs)). now symmetry.
  - intros (Hterm & id & Hid & [-> | (rest & ->)]).
    + rewrite str_split_app by exact Hid.
      rewrite str_split_no_sep by exact Hterm.
      simpl. now rewrite String.eqb_refl.
    + rewrite str_split_app by exact Hid.
      rewrite str_split_app by exact Hterm.
      simpl. now rewrite String.eqb_refl.
Qed.

(** X20.  [filter_results_by_word] prints, without the white space at their
    two ends, exactly the lines that begin with a column, a tab and the
    term, and then end or go on with a tab: the term is compared with the
    whole second column.  A line without a tab is never printed, and a
    term that contains a tab finds nothing. *)
Theorem filter_results_by_word_prints_second_column_matches
        (lines : list string) (term printed : string) :
  In printed (filter_results_by_word lines term) <->
  In printed (map strip lines) /\
  count_char tab term = 0 /\
  exists id, count_char tab id = 0 /\
    (printed = (id ++ String tab term)%string \/
     exists rest,
       printed = (id ++ String tab (term ++ String tab rest))%string).
Proof.
  rewrite filter_results_by_word_eq, filter_In, second_column_is_shape.
  reflexivity.
Qed.

(** ** [process_reviews] from the reviews alone *)

Lemma filter_key_dict_get {V : Type} (d : dict V) (q : string) :
  NoDup (keys d) ->
  filter (fun p => String.eqb (fst p) q) d
  = match dict_get d q with
    | Some v => [(q, v)]
    | None => []
    end.
Proof.
  induction d as [| [k v] d IH]; simpl; intros Hnd; [reflexivity |].
  inversion Hnd as [| ? ? Hnotin Hnd']; subst.
  destruct (String.eqb_spec k q) as [-> | Hk]; [| now apply IH].
  f_equal. rewrite IH by assumption.
  destruct (dict_get d q) as [v' |] eqn:E; [| reflexivity].
  exfalso. apply Hnotin. apply dict_get_In in E.
  apply in_map_iff. now exists (q, v').
Qed.

Lemma results_of_word_map_tf (id text q : string) :
  results_of_word (TP1.map_tf id text) q
  = if mentions q text
    then [((q, id),
           (count_occ string_dec (tokens text) q, S (count_separators text)))]
    else [].
Proof.
  rewrite TP1_map_tf_eq. unfold results_of_word.
  rewrite re_split_length, count_separators_lower, filter_map_swap.
  cbn [fst].
  rewrite filter_key_dict_get by apply count_words_NoDup.
  destruct (dict_get (count_words (re_split (lower text))) q) as [c |] eqn:E.
  - apply dict_get_In, count_words_In in E. destruct E as [-> Hc].
    fold (tokens text) in *.
    assert (M : mentions q text = true).
    { unfold mentions. apply existsb_exists. exists q.
      split; [| apply String.eqb_refl].
      apply (count_occ_In string_dec). lia. }
    now rewrite M.
  - destruct (mentions q text) eqn:M; [| reflexivity].
    exfalso. unfold mentions in M. apply existsb_exists in M.
    destruct M as (t & Hin & Et). apply String.eqb_eq in Et. subst t.
    apply (count_occ_In string_dec) in Hin.
    assert (Hq : In (q, count_occ string_dec (tokens text) q)
                    (count_words (re_split (lower text))))
      by (apply count_words_In; split; [reflexivity | exact Hin]).
    apply In_dict_get in Hq; [| apply count_words_NoDup].
    congruence.
Qed.

Lemma filter_term_tfidf_of_word (idf : string -> R) (q : string)
      (l : list TP1.tf_result) :
  TP1.filter_term_tfidf (map (tfidf_triple idf) l) q
  = map (fun r => (snd (fst r),
                   tfidf_score (fst (snd r)) (snd (snd r)) (idf q)))
        (results_of_word l q).
Proof.
  unfold results_of_word.
  induction l as [| [[w i] [tf wc]] l IH]; simpl; [reflexivity |].
  destruct (String.eqb_spec w q) as [-> | Hw]; simpl; now rewrite IH.
Qed.

Lemma scores_of_word_flat_map (idf : R) (reviews : list (string * string))
      (q : string) :
  map (fun r : TP1.tf_result =>
         (snd (fst r), tfidf_score (fst (snd r)) (snd (snd r)) idf))
      (flat_map (fun a => results_of_word (TP1.map_tf (fst a) (snd a)) q)
                reviews)
  = map (fun p => (fst p,
                   tfidf_score (count_occ string_dec (tokens (snd p)) q)
                               (S (count_separators (snd p))) idf))
        (reviews_with q reviews).
Proof.
  unfold reviews_with.
  induction reviews as [| [id text] reviews IH];
    cbn [flat_map filter map fst snd]; [reflexivity |].
  rewrite map_app, results_of_word_map_tf.
  destruct (mentions q text); cbn [app map fst snd]; [f_equal |]; exact IH.
Qed.

(** X21.  [process_reviews] as a function of the reviews alone.  For each
    review that has the search term among its tokens, in the order of the
    reviews, it returns the review id with the score
    [(count / length) * ln (N / df)]: [count] the number of occurrences of
    the term among the tokens of the review, [length] one more than the
    number of separator characters of its text, [N] the number of reviews
    and [df] the number of distinct ids of the reviews that have the
    term. *)
Theorem process_reviews_from_the_reviews
        (reviews : list (string * string)) (search_term : string) :
  TP1.process_reviews reviews search_term
  = Ok (map (fun p =>
               (fst p,
                tfidf_score
                  (count_occ string_dec (tokens (snd p)) search_term)
                  (S (count_separators (snd p)))
                  (ln_ratio
                     (Z.of_nat (length reviews))
                     (length (nodup string_dec
                                (map fst (reviews_with search_term reviews)))))))
            (reviews_with search_term reviews)).
Proof.
  rewrite process_reviews_closed_form. f_equal.
  rewrite filter_term_tfidf_of_word.
  rewrite doc_frequency_distinct. unfold distinct_ids_of_word.
  rewrite map_tf_on_reviews_eq, results_of_word_flat_map.
  rewrite ids_of_word_flat_map.
  apply scores_of_word_flat_map.
Qed.

(** ** The order of the records of a mapper *)

Lemma keys_tf_incr_eq (word : string) (TF : dict nat) :
  keys (tf_incr word TF)
  = if existsb (String.eqb word) (keys TF) then keys TF
    else keys TF ++ [word].
Proof.
  unfold keys.
  induction TF as [| [k n] TF IH]; simpl; [reflexivity |].
  rewrite (String.eqb_sym word k).
  destruct (String.eqb k word); simpl; [reflexivity |].
  rewrite IH.
  now destruct (existsb (String.eqb word) (map fst TF)).
Qed.

Lemma filter_remove_known (K : list string) (w : string) (l : list string) :
  existsb (String.eqb w) K = true ->
  filter (fun x => negb (existsb (String.eqb x) K)) (remove string_dec w l)
  = filter (fun x => negb (existsb (String.eqb x) K)) l.
Proof.
  intros Hw. induction l as [| a l IH]; simpl; [reflexivity |].
  destruct (string_dec w a) as [<- | Hne].
  - now rewrite Hw, IH.
  - simpl. now rewrite IH.
Qed.

Lemma filter_unknown_snoc (K : list string) (w : string) (l : list string) :
  filter (fun x => negb (existsb (String.eqb x) (K ++ [w]))) l
  = filter (fun x => negb (existsb (String.eqb x) K)) (remove string_dec w l).
Proof.
  induction l as [| a l IH]; simpl; [reflexivity |].
  rewrite existsb_app. simpl. rewrite orb_false_r.
  destruct (string_dec w a) as [<- | Hne].
  - now rewrite String.eqb_refl, orb_true_r, IH.
  - assert (E : String.eqb a w = false)
      by (apply String.eqb_neq; congruence).
    rewrite E, orb_false_r. simpl. now rewrite IH.
Qed.

Lemma count_loop_keys (words : list string) :
  forall TF0,
    keys (fold_left count_step words TF0)
    = keys TF0
      ++ filter (fun w => negb (existsb (String.eqb w) (keys TF0)))
                (first_occurrences (filter truthy words)).
Proof.
  induction words as [| word words IH]; intros TF0; simpl.
  - now rewrite app_nil_r.
  - rewrite IH. unfold count_step.
    destruct (truthy word); [| reflexivity].
    rewrite keys_tf_incr_eq. cbn [first_occurrences filter].
    destruct (existsb (String.eqb word) (keys TF0)) eqn:E; cbn [negb].
    + now rewrite filter_remove_known.
    + rewrite <- app_assoc. cbn [app]. now rewrite filter_unknown_snoc.
Qed.

Lemma count_words_keys (words : list string) :
  keys (count_words words) = first_occurrences (filter truthy words).
Proof.
  unfold count_words. rewrite count_loop_keys. simpl.
  induction (first_occurrences (filter truthy words)) as [| a l IH];
    simpl; [reflexivity | now rewrite IH].
Qed.

(** X22.  Both mappers emit the records of a document in the order in
    which the words occur for the first time in it. *)
Theorem map_tf_emits_in_order_of_first_occurrence (id review : string) :
  map (fun r => fst (fst r)) (TP1.map_tf id review)
  = first_occurrences (tokens review) /\
  forall ctx, exists written,
    MapReduce.map_tf id review ctx = ctx ++ written /\
    map fst written = first_occurrences (tokens review).
Proof.
  split.
  - rewrite TP1_map_tf_eq, map_map. cbn [fst].
    apply (count_words_keys (re_split (lower review))).
  - intros ctx. eexists. split; [apply MapReduce_map_tf_eq |].
    rewrite map_map. cbn [fst].
    apply (count_words_keys (re_split (lower review))).
Qed.

(** ** File names and blank columns *)

Lemma substring_all (t : string) : substring 0 (String.length t) t = t.
Proof. induction t as [| c t IH]; simpl; [reflexivity | now rewrite IH]. Qed.

Lemma substring_app_suffix (p t : string) :
  substring (String.length p) (String.length t) (p ++ t)%string = t.
Proof.
  induction p as [| c p IH]; simpl; [apply substring_all | exact IH].
Qed.

Lemma length_append (p t : string) :
  String.length (p ++ t)%string = String.length p + String.length t.
Proof. induction p as [| c p IH]; simpl; [reflexivity | now rewrite IH]. Qed.

Lemma substring_split (s : string) :
  forall k, k <= String.length s ->
            s = (substring 0 k s
                 ++ substring k (String.length s - k) s)%string.
Proof.
  induction s as [| c s IH]; intros k Hk; simpl in Hk.
  - destruct k; [reflexivity | lia].
  - destruct k as [| k].
    + cbn [substring String.append Nat.sub String.length].
      now rewrite substring_all.
    + cbn [substring String.append Nat.sub String.length].
      f_equal. apply IH. lia.
Qed.

(** X23.  A file is read, and counted in the total of the job, exactly
    when its name is some string followed by [.txt], in these letters:
    [endswith] holds exactly for the strings that end with the suffix. *)
Theorem endswith_iff_suffix (suffix s : string) :
  endswith suffix s = true <-> exists stem, s = (stem ++ suffix)%string.
Proof.
  unfold endswith. split.
  - intros H. apply andb_prop in H. destruct H as [Hlen Heq].
    apply Nat.leb_le in Hlen. apply String.eqb_eq in Heq.
    exists (substring 0 (String.length s - String.length suffix) s).
    assert (Hk : String.length s - String.length suffix <= String.length s)
      by lia.
    pose proof (substring_split s Hk) as Hs.
    replace (String.length s - (String.length s - String.length suffix))
      with (String.length suffix) in Hs by lia.
    rewrite Heq in Hs. exact Hs.
  - intros (stem & ->). rewrite length_append.
    apply andb_true_intro. split; [apply Nat.leb_le; lia |].
    replace (String.length stem + String.length suffix - String.length suffix)
      with (String.length stem) by lia.
    rewrite substring_app_suffix. apply String.eqb_refl.
Qed.

Lemma lstrip_blank (ws : string) :
  blank ws = true -> forall s, lstrip (ws ++ s)%string = lstrip s.
Proof.
  induction ws as [| c ws IH]; simpl; intros H s; [reflexivity |].
  apply andb_prop in H. destruct H as [Hc Hws].
  rewrite Hc. now apply IH.
Qed.

Lemma lstrip_all_blank (ws : string) :
  blank ws = true -> lstrip ws = EmptyString.
Proof.
  induction ws as [| c ws IH]; simpl; intros H; [reflexivity |].
  apply andb_prop in H. destruct H as [Hc Hws].
  rewrite Hc. now apply IH.
Qed.

Lemma rstrip_blank (ws : string) : blank ws = true -> rstrip ws = EmptyString.
Proof.
  induction ws as [| c ws IH]; simpl; intros H; [reflexivity |].
  apply andb_prop in H. destruct H as [Hc Hws].
  now rewrite IH, Hc.
Qed.

Lemma rstrip_app_blank (ws : string) :
  blank ws = true -> forall s, rstrip (s ++ ws)%string = rstrip s.
Proof.
  intros H s. induction s as [| c s IH]; simpl.
  - now apply rstrip_blank.
  - now rewrite IH.
Qed.

Lemma lstrip_app (a b : string) :
  lstrip (a ++ b)%string
  = match lstrip a with
    | EmptyString => lstrip b
    | String _ _ => (lstrip a ++ b)%string
    end.
Proof.
  induction a as [| c a IH]; simpl.
  - now destruct (lstrip b).
  - destruct (is_space c); [exact IH | reflexivity].
Qed.

Lemma count_char_lstrip (sep : ascii) (s : string) :
  count_char sep (lstrip s) <= count_char sep s.
Proof.
  unfold count_char.
  induction s as [| c s IH]; simpl; [lia |].
  destruct (is_space c); simpl; lia.
Qed.

Lemma count_char_rstrip (sep : ascii) (s : string) :
  count_char sep (rstrip s) <= count_char sep s.
Proof.
  unfold count_char.
  induction s as [| c s IH]; simpl; [lia |].
  destruct (rstrip s) as [| c' r].
  - destruct (is_space c); simpl in *; lia.
  - simpl in *. lia.
Qed.

Lemma review_text_of_no_tab (content : string) :
  count_char tab (strip content) = 0 ->
  review_text_of content = RaiseIndexError.
Proof.
  intros H.
  destruct (review_text_of_cases content) as [[_ E] | (Hnz & _)];
    [exact E | contradiction].
Qed.

(** X24.  White space at the two ends of a file is dropped before the
    columns are taken, tabs included.  So white space before the content
    changes nothing, and a file that holds an id, a tab and then nothing
    but white space has no second column left: reading it raises
    [IndexError]. *)
Theorem review_text_of_blank_text_raises (id ws : string) :
  count_char tab id = 0 -> blank ws = true ->
  review_text_of (id ++ String tab ws)%string = RaiseIndexError /\
  forall content, review_text_of (ws ++ content)%string
                  = review_text_of content.
Proof.
  intros Hid Hws. split.
  - apply review_text_of_no_tab. unfold strip.
    assert (Htail : blank (String tab ws) = true) by (simpl; exact Hws).
    rewrite lstrip_app.
    destruct (lstrip id) as [| c r] eqn:E.
    + now rewrite (lstrip_all_blank _ Htail).
    + rewrite <- E. rewrite (rstrip_app_blank _ Htail).
      pose proof (count_char_rstrip tab (lstrip id)).
      pose proof (count_char_lstrip tab id). lia.
  - intros content. unfold review_text_of, strip.
    now rewrite lstrip_blank.
Qed.

Lemma review_text_of_blank_text_raises_witness :
  review_text_of ("10_7" ++ String tab (String "010" ""))%string
  = RaiseIndexError /\
  forall content,
    review_text_of (String "010" "" ++ content)%string
    = review_text_of content.
Proof. apply review_text_of_blank_text_raises; reflexivity. Defined.
